(** * Embeddings viewer: the 2D projection engine

    A shallow embedding of the projection core of the embeddings viewer
    ([utils/seededRandom], [utils/algorithms/tSNE], [utils/algorithms/uMAP],
    [utils/algorithms/incrementalPCA], [utils/algorithms/projectTo2D]) and the
    properties of it that the specification states; then of what the
    interface puts around it (the JSONL reader of [hooks/useEmbeddings], the
    defaults shown by [components/UMAPParamsControl], the algorithm announced
    by [App]), with further properties of the whole.

    JavaScript numbers are IEEE 754 binary64 values: they are modelled by
    Rocq's primitive floats, whose [+ - * / sqrt] and comparisons are the
    IEEE operations.  Integers that the code only counts with (array lengths,
    loop counters, indices) are [nat] or [Z]. *)

From Stdlib Require Import String Ascii DecimalString.
From Stdlib Require Import ZArith List Bool Lia Floats.
From Stdlib Require Import NArith Permutation.
Import ListNotations.

(* Decimal literals such as 0.01 denote the nearest binary64 value, exactly
   as a JavaScript numeric literal does. *)
Set Warnings "-inexact-float".

Local Open Scope float_scope.

(** ** The JavaScript runtime: numbers, 32-bit integer operators, Math *)

Module JS.

Definition of_Z (z : Z) : float :=
  if (z <? 0)%Z then - of_uint63 (Uint63.of_Z (- z))
  else of_uint63 (Uint63.of_Z z).

Definition of_nat (n : nat) : float := of_Z (Z.of_nat n).

(** The integer part of a number (truncation toward zero); 0 for NaN and
    the infinities, as [ToInt32] and [ToIntegerOrInfinity] want it for
    NaN. *)
Definition truncZ (f : float) : Z :=
  match Prim2SF f with
  | S754_finite s m e =>
      let a := if (0 <=? e)%Z then (Z.pos m * 2 ^ e)%Z
               else (Z.pos m / 2 ^ (- e))%Z in
      if s then (- a)%Z else a
  | _ => 0%Z
  end.

(** The largest integer below a finite number. *)
Definition floorZ (f : float) : Z :=
  match Prim2SF f with
  | S754_finite s m e =>
      let sm := if s then Z.neg m else Z.pos m in
      if (0 <=? e)%Z then (sm * 2 ^ e)%Z else (sm / 2 ^ (- e))%Z
  | _ => 0%Z
  end.

Definition ToUint32 (z : Z) : Z := (z mod 2 ^ 32)%Z.

Definition ToInt32 (z : Z) : Z :=
  let u := ToUint32 z in if (u <? 2 ^ 31)%Z then u else (u - 2 ^ 32)%Z.

(** [a ^ b], [a | b], [a >>> k] and [Math.imul(a, b)] on integral numbers. *)
Definition xor (a b : Z) : Z := Z.lxor (ToInt32 a) (ToInt32 b).
Definition or (a b : Z) : Z := Z.lor (ToInt32 a) (ToInt32 b).
Definition ushr (a k : Z) : Z := Z.shiftr (ToUint32 a) k.
Definition imul (a b : Z) : Z := ToInt32 (ToInt32 a * ToInt32 b).

(** The 64 bits of a number, as [new Float64Array([v])] stores them.  A NaN
    has the bits of the canonical quiet NaN here; a NaN that a computation
    left with another sign or payload has other bits in the runtime. *)
Definition float_bits (f : float) : Z :=
  match Prim2SF f with
  | S754_zero s => if s then (2 ^ 63)%Z else 0%Z
  | S754_infinity s =>
      ((if s then 2 ^ 63 else 0) + 0x7FF * 2 ^ 52)%Z
  | S754_nan => (0x7FF8 * 2 ^ 48)%Z
  | S754_finite s m e =>
      ((if s then 2 ^ 63 else 0) +
       (if (2 ^ 52 <=? Z.pos m)%Z
        then (e + 1075) * 2 ^ 52 + (Z.pos m - 2 ^ 52)
        else Z.pos m))%Z
  end.

(** [new Uint8Array(bytes.buffer)]: the eight bytes, least significant
    first. *)
Definition float_bytes (f : float) : list Z :=
  let b := float_bits f in
  map (fun k => Z.land (Z.shiftr b (8 * Z.of_nat k)) 0xFF) (seq 0 8).

Definition isNaN (f : float) : bool := is_nan f.
Definition isFinite (f : float) : bool := is_finite f.

(** [a === b] and [a !== b] on numbers. *)
Definition strict_eq (a b : float) : bool := PrimFloat.eqb a b.
Definition strict_neq (a b : float) : bool := negb (PrimFloat.eqb a b).

(** [x || d] on a number or [undefined]: 0, -0, NaN and [undefined] are
    falsy. *)
Definition or_default (x : option float) (d : float) : float :=
  match x with
  | Some v => if is_nan v || is_zero v then d else v
  | None => d
  end.

Module Math.

Definition min (a b : float) : float :=
  if is_nan a || is_nan b then nan
  else if a <? b then a
  else if b <? a then b
  else if get_sign a then a else b.

Definition max (a b : float) : float :=
  if is_nan a || is_nan b then nan
  else if b <? a then a
  else if a <? b then b
  else if get_sign a then b else a.

Definition sign (x : float) : float :=
  if is_nan x then nan
  else if is_zero x then x
  else if x <? 0 then -1 else 1.

Definition floor (x : float) : float :=
  if is_nan x || is_infinity x || is_zero x then x
  else if 0x1p52 <=? abs x then x
  else
    let z := floorZ x in
    if (z =? 0)%Z then 0 else of_Z z.

Definition sqrt (x : float) : float := PrimFloat.sqrt x.

End Math.

(** The functions of [Math] that ECMAScript leaves
    "implementation-approximated".  The projectors are parameterised by
    them. *)
Record MathLib := {
  exp : float -> float;
  log : float -> float;
  log2 : float -> float;
  pow : float -> float -> float
}.

End JS.

(** ** utils/seededRandom *)

Record SeededRandom := { seed : float }.

(** Mulberry32.  The field [seed] is a number: [this.seed += 0x6D2B79F5] is a
    floating-point addition, and only the bitwise operators wrap to 32 bits. *)
Definition next (rng : SeededRandom) : float * SeededRandom :=
  let s := seed rng + 0x6D2B79F5 in
  let t := JS.truncZ s in
  let t := JS.imul (JS.xor t (JS.ushr t 15)) (JS.or t 1) in
  let t := JS.xor t (t + JS.imul (JS.xor t (JS.ushr t 7)) (JS.or t 61))%Z in
  (JS.of_Z (JS.ushr (JS.xor t (JS.ushr t 14)) 0) / 4294967296,
   {| seed := s |}).

(** FNV-1a over the bytes of every coordinate, in dataset order. *)
Definition generateSeed (embeddings : list (list float)) : float :=
  let hash :=
    fold_left (fun hash row =>
      fold_left (fun hash value =>
        fold_left (fun hash byte =>
          JS.imul (JS.xor hash byte) 0x01000193)
          (JS.float_bytes value) hash)
        row hash)
      embeddings 0x811C9DC5%Z in
  JS.of_Z (JS.ushr hash 0).

(** A reference instance of [JS.MathLib] for evaluating the projectors on
    concrete datasets.  It returns the values that ECMAScript fixes exactly
    (NaN, zeros, infinities, [exp(-Infinity) = +0], [pow(x, 0) = 1], ...) and
    a range-reduced truncated series at the other arguments. *)
Module RefMath.

Definition ln2 : float := 0x1.62e42fefa39efp-1.
Definition ln2_hi : float := 0x1.62e42feep-1.
Definition ln2_lo : float := 0x1.a39ef35793c76p-33.
Definition inv_ln2 : float := 0x1.71547652b82fep+0.

(** [sum_{k < terms} r^k / k!], by Horner's rule. *)
Fixpoint exp_series (terms : nat) (k : float) (r : float) : float :=
  match terms with
  | O => 1
  | S t => 1 + r / k * exp_series t (k + 1) r
  end.

Definition exp (x : float) : float :=
  if is_nan x then nan
  else if is_infinity x then (if get_sign x then 0 else infinity)
  else if is_zero x then 1
  else if 709.782712893384 <? x then infinity
  else if x <? -745.1332191019412 then 0
  else
    let k := JS.floorZ (x * inv_ln2 + 0.5) in
    let kf := JS.of_Z k in
    let r := x - kf * ln2_hi - kf * ln2_lo in
    Z.ldexp (exp_series 18 1 r) k.

(** [sum_{k < terms} s2^k / (2k + d)] for [atanh]. *)
Fixpoint atanh_series (terms : nat) (d : float) (s2 : float) : float :=
  match terms with
  | O => 0
  | S t => 1 / d + s2 * atanh_series t (d + 2) s2
  end.

(** The logarithm of the mantissa and the binary exponent of a positive
    finite number. *)
Definition log_parts (x : float) : float * float :=
  let '(m, e) := Z.frexp x in
  let '(m, e) := if m <? 0x1.6a09e667f3bcdp-1 then (2 * m, (e - 1)%Z)
                 else (m, e) in
  let s := (m - 1) / (m + 1) in
  (2 * s * atanh_series 14 1 (s * s), JS.of_Z e).

Definition log (x : float) : float :=
  if is_nan x || (x <? 0) then nan
  else if is_zero x then neg_infinity
  else if is_infinity x then infinity
  else let '(lm, e) := log_parts x in e * ln2 + lm.

Definition log2 (x : float) : float :=
  if is_nan x || (x <? 0) then nan
  else if is_zero x then neg_infinity
  else if is_infinity x then infinity
  else let '(lm, e) := log_parts x in e + lm * inv_ln2.

(** Only the exponents 0 and 1 are ever passed by the projectors. *)
Definition pow (x y : float) : float :=
  if is_nan y then nan
  else if is_zero y then 1
  else if is_nan x then nan
  else if y =? 1 then x
  else if 0 <? x then exp (y * log x)
  else nan.

Definition lib : JS.MathLib :=
  {| JS.exp := exp; JS.log := log; JS.log2 := log2; JS.pow := pow |}.

End RefMath.

(** ** types/embeddings *)

Module Document.
Record t := { title : string; text : string }.
End Document.

Module Point2D.
Record t := {
  x : float;
  y : float;
  title : string;
  text : string;
  index : nat
}.
End Point2D.

(** What a call completes with: a value, or a thrown [TypeError]. *)
Inductive Completion (A : Type) : Type :=
| Normal (a : A)
| Throw_TypeError.
Arguments Normal {A} a.
Arguments Throw_TypeError {A}.

(** ** Array and string helpers *)

(** [v[i]] used in arithmetic: an absent element is [undefined], which
    arithmetic turns into NaN. *)
Definition get (v : list float) (i : nat) : float := nth i v nan.

Definition row (m : list (list float)) (i : nat) : list float := nth i m [].

Definition get2 (m : list (list float)) (i j : nat) : float := get (row m i) j.

(** [let s = 0; for (...) s += f(i)] over the indices [ks]. *)
Definition sum_over (ks : list nat) (f : nat -> float) : float :=
  fold_left (fun s i => s + f i) ks 0.

(** [String(k)] for a non-negative integer. *)
Definition decimal (k : nat) : string := NilZero.string_of_uint (Nat.to_uint k).

Definition is_empty (s : string) : bool :=
  match s with EmptyString => true | _ => false end.

(** [`Document ${i + 1}`]. *)
Definition placeholder (i : nat) : string :=
  ("Document " ++ decimal (i + 1))%string.

(** [documents[i]?.title || `Document ${i + 1}`]. *)
Definition titleOf (documents : list Document.t) (i : nat) : string :=
  match nth_error documents i with
  | Some d => if is_empty (Document.title d)
              then placeholder i else Document.title d
  | None => placeholder i
  end.

(** [documents[i]?.text || '']. *)
Definition textOf (documents : list Document.t) (i : nat) : string :=
  match nth_error documents i with
  | Some d => Document.text d
  | None => ""%string
  end.

(** The final loop of every projector: one point per layout row, in order. *)
Definition toPoints (documents : list Document.t) (Y : list (float * float))
  : list Point2D.t :=
  map (fun i =>
         {| Point2D.x := fst (nth i Y (nan, nan));
            Point2D.y := snd (nth i Y (nan, nan));
            Point2D.title := titleOf documents i;
            Point2D.text := textOf documents i;
            Point2D.index := i |})
      (seq 0 (length Y)).

(** The point returned for a one-element dataset. *)
Definition singlePoint (documents : list Document.t) : Point2D.t :=
  {| Point2D.x := 0; Point2D.y := 0;
     Point2D.title := titleOf documents 0;
     Point2D.text := textOf documents 0;
     Point2D.index := 0 |}.

(** ** utils/algorithms/incrementalPCA *)

Module PCAOptions.
Record t := { powerIterations : option nat }.
End PCAOptions.

Module PCA.

Definition pattern : list float := [1; 0; -1; 0].

Definition norm (dim : nat) (v : list float) : float :=
  JS.Math.sqrt (sum_over (seq 0 dim) (fun i => get v i * get v i)).

Definition scale (dim : nat) (v : list float) (c : float) : list float :=
  map (fun i => get v i * c) (seq 0 dim).

Definition dot (dim : nat) (u v : list float) : float :=
  sum_over (seq 0 dim) (fun j => get u j * get v j).

(** Pass 1: [mean[j] += vec[j]] over the rows, then [mean[j] /= n]. *)
Definition mean (n dim : nat) (embeddings : list (list float)) : list float :=
  map (fun j => sum_over (seq 0 n) (fun i => get (row embeddings i) j)
                / JS.of_nat n)
      (seq 0 dim).

(** Pass 2. *)
Definition center (n dim : nat) (embeddings : list (list float))
    (mu : list float) : list (list float) :=
  map (fun i => map (fun j => get (row embeddings i) j - get mu j)
                    (seq 0 dim))
      (seq 0 n).

(** [C * w = sum_i x_i (x_i . w)], accumulated row by row. *)
Definition covTimes (n dim : nat) (centeredData : list (list float))
    (w : list float) : list float :=
  map (fun j =>
         sum_over (seq 0 n) (fun i =>
           get (row centeredData i) j * dot dim (row centeredData i) w))
      (seq 0 dim).

(** One round of pass 3 on the pair [(pc1, pc2)]. *)
Definition powerStep (n dim : nat) (centeredData : list (list float))
    (pcs : list float * list float) : list float * list float :=
  let '(pc1, pc2) := pcs in
  let Cpc1 := covTimes n dim centeredData pc1 in
  let pc1 := scale dim Cpc1 (1 / norm dim Cpc1) in
  let Cpc2 := covTimes n dim centeredData pc2 in
  let dot12 := dot dim pc1 Cpc2 in
  let Cpc2 := map (fun j => get Cpc2 j - dot12 * get pc1 j) (seq 0 dim) in
  let pc2 := scale dim Cpc2 (1 / norm dim Cpc2) in
  (pc1, pc2).

Definition project (dim : nat) (pcs : list float * list float)
    (centered : list float) : float * float :=
  fold_left (fun xy j =>
               (fst xy + get centered j * get (fst pcs) j,
                snd xy + get centered j * get (snd pcs) j))
            (seq 0 dim) (0, 0).

End PCA.

(** There is no guard on the dataset size: [embeddings[0].length] throws on
    the empty dataset, and a one-element dataset runs the whole pipeline. *)
Definition incrementalPCA (embeddings : list (list float))
    (documents : list Document.t) (options : option PCAOptions.t)
  : Completion (list Point2D.t) :=
  let n := length embeddings in
  match embeddings with
  | [] => Throw_TypeError
  | first :: _ =>
      let dim := length first in
      let pc1 := map (fun i => get PCA.pattern (i mod 4)) (seq 0 dim) in
      let pc2 := map (fun i => get PCA.pattern ((i + 1) mod 4)) (seq 0 dim) in
      let pc1 := PCA.scale dim pc1 (1 / PCA.norm dim pc1) in
      let pc2 := PCA.scale dim pc2 (1 / PCA.norm dim pc2) in
      let mu := PCA.mean n dim embeddings in
      let centeredData := PCA.center n dim embeddings mu in
      let numIterations :=
        match options with
        | Some {| PCAOptions.powerIterations := Some k |} => k
        | _ => 20%nat
        end in
      let pcs := Nat.iter numIterations (PCA.powerStep n dim centeredData)
                          (pc1, pc2) in
      Normal (toPoints documents (map (PCA.project dim pcs) centeredData))
  end.

(** ** Pairwise Euclidean distances (the same code in tSNE and uMAP) *)

Definition euclid (dim : nat) (vecI vecJ : list float) : float :=
  JS.Math.sqrt
    (sum_over (seq 0 dim)
       (fun d => let diff := get vecI d - get vecJ d in diff * diff)).

(** Only the upper triangle is computed; [distances[j][i]] is the value
    computed for [i < j]. *)
Definition pairwiseDistances (embeddings : list (list float))
  : list (list float) :=
  let n := length embeddings in
  let dim := length (row embeddings 0) in
  map (fun i =>
         map (fun j =>
                if (i =? j)%nat then 0
                else if (i <? j)%nat
                     then euclid dim (row embeddings i) (row embeddings j)
                     else euclid dim (row embeddings j) (row embeddings i))
             (seq 0 n))
      (seq 0 n).

(** The initial layout: two draws per point, [x] first. *)
Fixpoint initLayout (n : nat) (rng : SeededRandom)
  : list (float * float) * SeededRandom :=
  match n with
  | O => ([], rng)
  | S n' =>
      let '(a, rng) := next rng in
      let '(b, rng) := next rng in
      let '(Y, rng) := initLayout n' rng in
      (((a - 0.5) * 0.01, (b - 0.5) * 0.01) :: Y, rng)
  end.

(** [for (let j = 0; j < n; j++) { if (i === j) continue; ... }] *)
Definition others (n i : nat) : list nat :=
  filter (fun j => negb (i =? j)%nat) (seq 0 n).

(** ** utils/algorithms/tSNE *)

Module TSNEOptions.
Record t := {
  perplexity : option float;
  learningRate : option float;
  iterations : option nat;
  earlyExaggeration : option float;
  momentum : option float
}.
End TSNEOptions.

(** ** utils/algorithms/uMAP *)

Module UMAPOptions.
Record t := {
  nNeighbors : option float;
  nEpochs : option nat;
  learningRate : option float;
  negativeSampleRate : option nat
}.
End UMAPOptions.

(** [options?.field ?? fallback] *)
Definition opt {O A : Type} (options : option O) (field : O -> option A)
    (fallback : A) : A :=
  match options with
  | Some o => match field o with Some v => v | None => fallback end
  | None => fallback
  end.

Section Projectors.

(** The runtime the projectors run on: its approximated Math functions and
    the values that successive calls of [Math.random()] return. *)
Variable M : JS.MathLib.
Variable Math_random : nat -> float.

(** *** t-SNE, step 2: conditional probabilities by bandwidth search *)

(** [similarities[i][j] = Math.exp(-(dist * dist) / (2 * sigma * sigma))]
    for [j <> i]; the diagonal stays 0. *)
Definition tsne_kernelRow (distances : list (list float)) (n i : nat)
    (sigma : float) : list float :=
  map (fun j =>
         if (i =? j)%nat then 0
         else let dist := get2 distances i j in
              JS.exp M (- (dist * dist) / (2 * sigma * sigma)))
      (seq 0 n).

(** One round of the binary search, on [(sigmaLow, sigmaHigh, sigma)]. *)
Definition tsne_bandwidthStep (distances : list (list float)) (n i : nat)
    (targetEntropy : float) (st : float * float * float)
  : float * float * float :=
  let '(sigmaLow, sigmaHigh, _) := st in
  let sigma := (sigmaLow + sigmaHigh) / 2 in
  let sims := tsne_kernelRow distances n i sigma in
  let sum := sum_over (others n i) (get sims) in
  let entropy :=
    fold_left (fun entropy j =>
                 let p := get sims j / sum in
                 if 1e-10 <? p then entropy - p * JS.log M p else entropy)
              (others n i) 0 in
  if targetEntropy <? entropy then (sigmaLow, sigma, sigma)
  else (sigma, sigmaHigh, sigma).

(** Row [i] of [similarities] after its final normalisation: every entry
    off the diagonal is divided by the row sum, whatever that sum is. *)
Definition tsne_similarityRow (distances : list (list float)) (n : nat)
    (targetEntropy : float) (i : nat) : list float :=
  let '(_, _, sigma) :=
    Nat.iter 50 (tsne_bandwidthStep distances n i targetEntropy)
             (1e-10, 1000, 1.0) in
  let sims := tsne_kernelRow distances n i sigma in
  let sum := sum_over (others n i) (get sims) in
  map (fun j => if (i =? j)%nat then 0 else get sims j / sum) (seq 0 n).

Definition tsne_perplexity (n : nat) (options : option TSNEOptions.t)
  : float :=
  opt options TSNEOptions.perplexity
      (if (n <? 30)%nat then 5
       else if (n <=? 100)%nat then 10
       else JS.Math.min 30 (JS.of_nat n - 1)).

Definition tsne_similarities (embeddings : list (list float))
    (options : option TSNEOptions.t) : list (list float) :=
  let n := length embeddings in
  let distances := pairwiseDistances embeddings in
  let targetEntropy := JS.log M (tsne_perplexity n options) in
  map (tsne_similarityRow distances n targetEntropy) (seq 0 n).

(** Symmetrize: [P_ij = (p_{j|i} + p_{i|j}) / (2n)], computed for [i < j]
    and mirrored. *)
Definition tsne_P (embeddings : list (list float))
    (options : option TSNEOptions.t) : list (list float) :=
  let n := length embeddings in
  let similarities := tsne_similarities embeddings options in
  map (fun i =>
         map (fun j =>
                if (i =? j)%nat then 0
                else
                  let a := Nat.min i j in
                  let b := Nat.max i j in
                  (get2 similarities a b + get2 similarities b a)
                  / JS.of_nat (2 * n))
             (seq 0 n))
      (seq 0 n).

(** *** t-SNE, step 4: gradient descent *)

Record TsneState := {
  ts_Y : list (float * float);
  ts_gains : list (float * float);
  ts_YStep : list (float * float);
  (** how many values [Math.random()] has returned so far *)
  ts_draws : nat
}.

Definition pt (Y : list (float * float)) (i : nat) : float * float :=
  nth i Y (nan, nan).

Fixpoint setAt {A : Type} (l : list A) (i : nat) (v : A) : list A :=
  match l, i with
  | [], _ => []
  | _ :: t, O => v :: t
  | h :: t, S i' => h :: setAt t i' v
  end.

(** The unnormalised Student-t similarity of the points [i < j]. *)
Definition tsne_q (Y : list (float * float)) (i j : nat) : float :=
  let dx := fst (pt Y i) - fst (pt Y j) in
  let dy := snd (pt Y i) - snd (pt Y j) in
  let distSq := dx * dx + dy * dy in
  1.0 / (1.0 + distSq).

Definition tsne_sumQ (Y : list (float * float)) (n : nat) : float :=
  fold_left (fun sumQ i =>
               fold_left (fun sumQ j => sumQ + tsne_q Y i j)
                         (seq (S i) (n - S i)) sumQ)
            (seq 0 n) 0.

(** [Q[i][j]] after normalisation. *)
Definition tsne_Q (Y : list (float * float)) (n : nat) (sumQ : float)
    (i j : nat) : float :=
  if (i =? j)%nat then 0
  else tsne_q Y (Nat.min i j) (Nat.max i j) / sumQ.

Definition tsne_gradient (P : list (list float)) (Y : list (float * float))
    (n : nat) (sumQ exaggeration : float) (i : nat) : float * float :=
  fold_left (fun g j =>
               let mult := exaggeration * get2 P i j - tsne_Q Y n sumQ i j in
               let dx := fst (pt Y i) - fst (pt Y j) in
               let dy := snd (pt Y i) - snd (pt Y j) in
               (fst g + mult * dx, snd g + mult * dy))
            (others n i) (0, 0).

Definition tsne_gain (gain gradient step : float) : float :=
  if JS.strict_neq (JS.Math.sign gradient) (JS.Math.sign step)
  then gain + 0.2 else JS.Math.max (gain * 0.8) 0.01.

Definition clamp (bound v : float) : float :=
  JS.Math.max (- bound) (JS.Math.min bound v).

(** The body of the "update positions" loop for the point [i].  A
    non-finite coordinate is replaced by two draws of [Math.random()], not
    of the seeded generator. *)
Definition tsne_updatePoint (gradient : list (float * float))
    (currentMomentum eta : float) (st : TsneState) (i : nat) : TsneState :=
  let g := pt gradient i in
  let gain0 := tsne_gain (fst (pt (ts_gains st) i)) (fst g)
                         (fst (pt (ts_YStep st) i)) in
  let gain1 := tsne_gain (snd (pt (ts_gains st) i)) (snd g)
                         (snd (pt (ts_YStep st) i)) in
  let step0 := currentMomentum * fst (pt (ts_YStep st) i)
               - eta * gain0 * fst g in
  let step1 := currentMomentum * snd (pt (ts_YStep st) i)
               - eta * gain1 * snd g in
  let step0 := clamp 50 step0 in
  let step1 := clamp 50 step1 in
  let y0 := fst (pt (ts_Y st) i) + step0 in
  let y1 := snd (pt (ts_Y st) i) + step1 in
  let reset := negb (JS.isFinite y0) || negb (JS.isFinite y1)
               || JS.isNaN y0 || JS.isNaN y1 in
  {| ts_Y := setAt (ts_Y st) i
               (if reset
                then ((Math_random (ts_draws st) - 0.5) * 0.01,
                      (Math_random (S (ts_draws st)) - 0.5) * 0.01)
                else (clamp 1000 y0, clamp 1000 y1));
     ts_gains := setAt (ts_gains st) i (gain0, gain1);
     ts_YStep := setAt (ts_YStep st) i (step0, step1);
     ts_draws := if reset then S (S (ts_draws st)) else ts_draws st |}.

(** Subtract the mean of the layout from every point. *)
Definition tsne_center (n : nat) (Y : list (float * float))
  : list (float * float) :=
  let meanX := sum_over (seq 0 n) (fun i => fst (pt Y i)) / JS.of_nat n in
  let meanY := sum_over (seq 0 n) (fun i => snd (pt Y i)) / JS.of_nat n in
  map (fun i => (fst (pt Y i) - meanX, snd (pt Y i) - meanY)) (seq 0 n).

(** One iteration of the descent. *)
Definition tsne_iteration (P : list (list float)) (n : nat)
    (options : option TSNEOptions.t) (st : TsneState) (iter : nat)
  : TsneState :=
  let momentum := opt options TSNEOptions.momentum 0.8 in
  let eta := opt options TSNEOptions.learningRate 500 in
  let earlyExaggeration := opt options TSNEOptions.earlyExaggeration 4.0 in
  let sumQ := tsne_sumQ (ts_Y st) n in
  let exaggeration :=
    if (iter <? (if (n <? 200)%nat then 350 else 250))%nat
    then earlyExaggeration else 1.0 in
  let currentMomentum := if (iter <? 20)%nat then 0.5 else momentum in
  let gradient :=
    map (tsne_gradient P (ts_Y st) n sumQ exaggeration) (seq 0 n) in
  let st := fold_left (tsne_updatePoint gradient currentMomentum eta)
                      (seq 0 n) st in
  {| ts_Y := tsne_center n (ts_Y st);
     ts_gains := ts_gains st;
     ts_YStep := ts_YStep st;
     ts_draws := ts_draws st |}.

Definition tsne_iterations (n : nat) (options : option TSNEOptions.t)
  : nat :=
  opt options TSNEOptions.iterations
      (if (n <? 200)%nat then 1500 else 1000)%nat.

(** The layout when the descent ends. *)
Definition tsne_layout (embeddings : list (list float))
    (options : option TSNEOptions.t) : TsneState :=
  let n := length embeddings in
  let P := tsne_P embeddings options in
  let rng := {| seed := generateSeed embeddings |} in
  let Y := fst (initLayout n rng) in
  fold_left (tsne_iteration P n options)
            (seq 0 (tsne_iterations n options))
            {| ts_Y := Y;
               ts_gains := repeat (1.0, 1.0) n;
               ts_YStep := repeat (0, 0) n;
               ts_draws := 0 |}.

Definition tSNE (embeddings : list (list float))
    (documents : list Document.t) (options : option TSNEOptions.t)
  : list Point2D.t :=
  match embeddings with
  | [] => []
  | [_] => [singlePoint documents]
  | _ => toPoints documents (ts_Y (tsne_layout embeddings options))
  end.

(** *** UMAP, steps 2 and 3: nearest neighbours and the fuzzy graph *)

Definition umap_nNeighbors (n : nat) (options : option UMAPOptions.t)
  : float :=
  opt options UMAPOptions.nNeighbors
      (if (n <? 50)%nat
       then JS.Math.max 3 (JS.Math.min 8
              (JS.Math.floor (JS.Math.sqrt (JS.of_nat n))))
       else if (n <? 200)%nat
       then JS.Math.floor (10 + JS.Math.sqrt (JS.of_nat n - 100) / 3)
       else JS.Math.min 15 (JS.Math.floor (JS.of_nat n / 50))).

(** [neighbors.sort((a, b) => a.dist - b.dist)]: the sort is stable, and an
    element moves behind another one only when the comparator is
    positive.  With a NaN distance the comparator is inconsistent and
    ECMAScript leaves the order to the implementation: this is the order of
    an insertion sort, and a runtime may leave another one. *)
Fixpoint insertByDist (a : nat * float) (l : list (nat * float))
  : list (nat * float) :=
  match l with
  | [] => [a]
  | b :: t => if 0 <? snd a - snd b then b :: insertByDist a t
              else a :: b :: t
  end.

Definition sortByDist (l : list (nat * float)) : list (nat * float) :=
  fold_right insertByDist [] l.

(** [l.slice(0, k)] for a number [k]. *)
Definition slice0 {A : Type} (l : list A) (k : float) : list A :=
  let len := Z.of_nat (length l) in
  let stop :=
    if is_nan k then 0%Z
    else if is_infinity k then (if get_sign k then 0%Z else len)
    else let z := JS.truncZ k in
         if (z <? 0)%Z then Z.max (len + z) 0 else Z.min z len in
  firstn (Z.to_nat stop) l.

(** The [k] nearest neighbours of the point [i], with their distances. *)
Definition umap_knn (distances : list (list float)) (n : nat)
    (nNeighbors : float) (i : nat) : list (nat * float) :=
  let neighbors :=
    sortByDist (map (fun j => (j, get2 distances i j)) (others n i)) in
  let k := JS.Math.min nNeighbors (JS.of_nat (length neighbors)) in
  slice0 neighbors k.

Definition umap_sigmaStep (neighborDists : list float) (targetSum : float)
    (st : float * float) : float * float :=
  let '(sigmaLow, sigmaHigh) := st in
  let sigma := (sigmaLow + sigmaHigh) / 2 in
  let sum :=
    fold_left (fun sum d => sum + JS.exp M (- d / sigma)) neighborDists 0 in
  if targetSum <? sum then (sigmaLow, sigma) else (sigma, sigmaHigh).

Definition umap_sigma (targetSum : float) (knn : list (nat * float))
  : float :=
  let '(sigmaLow, sigmaHigh) :=
    Nat.iter 50 (umap_sigmaStep (map snd knn) targetSum) (1e-10, 1000) in
  (sigmaLow + sigmaHigh) / 2.

(** The [Map] of the fuzzy graph, in insertion order.  Its key
    [`${i}-${j}`] with [i < j] is kept as the pair [(i, j)]. *)
Definition Graph := list ((nat * nat) * float).

Definition key_eqb (a b : nat * nat) : bool :=
  (fst a =? fst b)%nat && (snd a =? snd b)%nat.

Fixpoint graph_get (g : Graph) (key : nat * nat) : option float :=
  match g with
  | [] => None
  | (k, w) :: t => if key_eqb k key then Some w else graph_get t key
  end.

Fixpoint graph_set (g : Graph) (key : nat * nat) (w : float) : Graph :=
  match g with
  | [] => [(key, w)]
  | (k, w') :: t => if key_eqb k key then (k, w) :: t
                    else (k, w') :: graph_set t key w
  end.

(** One directed neighbour relation [i -> nj] merged into the graph. *)
Definition umap_addMembership (sigma_i : float) (i : nat) (g : Graph)
    (neighbor : nat * float) : Graph :=
  let '(nj, dist) := neighbor in
  let pGivenJ := JS.exp M (- dist / sigma_i) in
  let key := if (i <? nj)%nat then (i, nj) else (nj, i) in
  let existing := JS.or_default (graph_get g key) 0 in
  graph_set g key (existing + pGivenJ - existing * pGivenJ).

Definition umap_graph (n : nat) (knn : list (list (nat * float)))
    (sigmas : list float) : Graph :=
  fold_left (fun g i =>
               fold_left (umap_addMembership (get sigmas i) i)
                         (nth i knn []) g)
            (seq 0 n) [].

Record Edge := { source : nat; target : nat; weight : float }.

(** Only the entries with a positive weight become edges. *)
Definition umap_edgesOf (g : Graph) : list Edge :=
  map (fun e => {| source := fst (fst e); target := snd (fst e);
                   weight := snd e |})
      (filter (fun e => 0 <? snd e) g).

Definition umap_knnAll (embeddings : list (list float))
    (options : option UMAPOptions.t) : list (list (nat * float)) :=
  let n := length embeddings in
  let distances := pairwiseDistances embeddings in
  map (umap_knn distances n (umap_nNeighbors n options)) (seq 0 n).

Definition umap_edges (embeddings : list (list float))
    (options : option UMAPOptions.t) : list Edge :=
  let n := length embeddings in
  let nNeighbors := umap_nNeighbors n options in
  let knn := umap_knnAll embeddings options in
  let targetSum := JS.log2 M nNeighbors in
  let sigmas := map (umap_sigma targetSum) knn in
  umap_edgesOf (umap_graph n knn sigmas).

(** *** UMAP, step 5: stochastic gradient descent *)

(** An integral number used as an array index. *)
Definition toIndex (f : float) : nat := Z.to_nat (JS.truncZ f).

(** [for (let i = ...; i > 0; i--)] of [seededShuffle], entered with the
    counter at [i]. *)
Fixpoint shuffleFrom (i : nat) (array : list nat) (rng : SeededRandom)
  : list nat * SeededRandom :=
  match i with
  | O => (array, rng)
  | S i' =>
      let '(r, rng) := next rng in
      let j := toIndex (JS.Math.floor (r * JS.of_nat (i + 1))) in
      let array := setAt (setAt array i (nth j array 0%nat))
                         j (nth i array 0%nat) in
      shuffleFrom i' array rng
  end.

Definition seededShuffle (array : list nat) (rng : SeededRandom)
  : list nat * SeededRandom :=
  shuffleFrom (length array - 1) array rng.

Definition coord (p : float * float) (d : nat) : float :=
  match d with O => fst p | _ => snd p end.

(** [Y[i][d] += v]; an index outside the layout is never produced here
    (the indices come from the edges and from [floor(r * n)], [r < 1]). *)
Definition addTo (Y : list (float * float)) (i d : nat) (v : float)
  : list (float * float) :=
  let p := pt Y i in
  setAt Y i (match d with
             | O => (fst p + v, snd p)
             | _ => (fst p, snd p + v)
             end).

Definition distSq (Y : list (float * float)) (j k : nat) : float :=
  sum_over (seq 0 2)
    (fun d => let diff := coord (pt Y j) d - coord (pt Y k) d in
              diff * diff).

(** [Y[j][d] += alpha * grad * weight; Y[k][d] -= alpha * grad * weight]
    for [d = 0, 1] (subtracting is adding the opposite). *)
Definition umap_move (coeff alpha w : float) (j k : nat)
    (Y : list (float * float)) : list (float * float) :=
  fold_left (fun Y d =>
               let diff := coord (pt Y j) d - coord (pt Y k) d in
               let grad := coeff * diff in
               let Y := addTo Y j d (alpha * grad * w) in
               addTo Y k d (- (alpha * grad * w)))
            (seq 0 2) Y.

Definition umap_a : float := 1.0.
Definition umap_b : float := 1.0.

Definition umap_negativeSample (n : nat) (alpha w : float) (j k : nat)
    (st : list (float * float) * SeededRandom)
  : list (float * float) * SeededRandom :=
  let '(Y, rng) := st in
  let '(r, rng) := next rng in
  let negIdx := JS.Math.floor (r * JS.of_nat n) in
  if JS.strict_eq negIdx (JS.of_nat j) || JS.strict_eq negIdx (JS.of_nat k)
  then (Y, rng)
  else
    let currentDistSq := distSq Y j (toIndex negIdx) in
    let negGradCoeff :=
      2 * umap_b / ((0.001 + currentDistSq)
                    * (umap_a + JS.pow M currentDistSq umap_b)) in
    (umap_move negGradCoeff alpha w j (toIndex negIdx) Y, rng).

(** The body of the loop over the shuffled edges. *)
Definition umap_edgeStep (n : nat) (edges : list Edge) (alpha : float)
    (negativeSampleRate : nat)
    (st : list (float * float) * SeededRandom) (edgeIdx : nat)
  : list (float * float) * SeededRandom :=
  let '(Y, rng) := st in
  let e := nth edgeIdx edges {| source := 0; target := 0; weight := nan |} in
  let j := source e in
  let k := target e in
  let currentDistSq := distSq Y j k in
  let gradCoeff :=
    -2 * umap_a * umap_b * JS.pow M currentDistSq (umap_b - 1)
    / (umap_a + JS.pow M currentDistSq umap_b) in
  let Y := umap_move gradCoeff alpha (weight e) j k Y in
  Nat.iter negativeSampleRate
           (umap_negativeSample n alpha (weight e) j k) (Y, rng).

Record UmapState := {
  um_Y : list (float * float);
  um_indices : list nat;
  um_rng : SeededRandom
}.

Definition umap_epoch (n : nat) (edges : list Edge)
    (learningRate : float) (nEpochs negativeSampleRate : nat)
    (st : UmapState) (epoch : nat) : UmapState :=
  let '(indices, rng) := seededShuffle (um_indices st) (um_rng st) in
  let alpha := learningRate * (1 - JS.of_nat epoch / JS.of_nat nEpochs) in
  let '(Y, rng) :=
    fold_left (umap_edgeStep n edges alpha negativeSampleRate)
              indices (um_Y st, rng) in
  {| um_Y := Y; um_indices := indices; um_rng := rng |}.

Definition umap_nEpochs (n : nat) (options : option UMAPOptions.t) : nat :=
  opt options UMAPOptions.nEpochs (if (n <? 1000)%nat then 500 else 200)%nat.

(** The layout right after its initialisation from the seeded generator. *)
Definition umap_initial (embeddings : list (list float)) : UmapState :=
  let n := length embeddings in
  let rng := {| seed := generateSeed embeddings |} in
  let '(Y, rng) := initLayout n rng in
  {| um_Y := Y; um_indices := []; um_rng := rng |}.

Definition umap_layout (embeddings : list (list float))
    (options : option UMAPOptions.t) : UmapState :=
  let n := length embeddings in
  let edges := umap_edges embeddings options in
  let init := umap_initial embeddings in
  fold_left (umap_epoch n edges
               (opt options UMAPOptions.learningRate 1.0)
               (umap_nEpochs n options)
               (opt options UMAPOptions.negativeSampleRate 5%nat))
            (seq 0 (umap_nEpochs n options))
            {| um_Y := um_Y init;
               um_indices := seq 0 (length edges);
               um_rng := um_rng init |}.

Definition uMAP (embeddings : list (list float))
    (documents : list Document.t) (options : option UMAPOptions.t)
  : list Point2D.t :=
  match embeddings with
  | [] => []
  | [_] => [singlePoint documents]
  | _ => toPoints documents (um_Y (umap_layout embeddings options))
  end.

End Projectors.

(** ** utils/algorithms/projectTo2D *)

Inductive AlgorithmType := auto | umap | tsne | pca.

Module Params.
Record t := {
  umap : option UMAPOptions.t;
  tsne : option TSNEOptions.t;
  pca : option PCAOptions.t
}.
End Params.

Module ProjectTo2DOptions.
Record t := { algorithm : AlgorithmType; params : option Params.t }.
End ProjectTo2DOptions.

Module ProjectionResult.
Record t := {
  points : list Point2D.t;
  algorithm : string;
  timeMs : float;
  warning : option string
}.
End ProjectionResult.

(** [options.params?.field] *)
Definition param {A : Type} (options : ProjectTo2DOptions.t)
    (field : Params.t -> option A) : option A :=
  match ProjectTo2DOptions.params options with
  | Some p => field p
  | None => None
  end.

(** [algorithm.toUpperCase()] *)
Definition upperName (algorithm : AlgorithmType) : string :=
  match algorithm with
  | auto => "AUTO"
  | umap => "UMAP"
  | tsne => "TSNE"
  | pca => "PCA"
  end.

(** "Determine algorithm". *)
Definition chooseAlgorithm (requested : AlgorithmType) (n : nat)
  : AlgorithmType :=
  match requested with
  | auto => if (8000 <? Z.of_nat n)%Z then pca else umap
  | explicit => explicit
  end.

(** "Warn if algorithm is not optimal for dataset size". *)
Definition sizeWarning (algorithm : AlgorithmType) (n : nat) : option string :=
  let nZ := Z.of_nat n in
  match algorithm with
  | pca =>
      if (nZ <=? 1000)%Z
      then Some ("PCA is recommended for datasets > 8000 samples. Current: "
                 ++ decimal n
                 ++ " samples. Consider using UMAP or t-SNE for better clustering.")%string
      else None
  | umap =>
      if (8000 <? nZ)%Z
      then Some ("UMAP may be slow for datasets > 8000 samples. Current: "
                 ++ decimal n
                 ++ " samples. Consider using PCA for faster results.")%string
      else None
  | tsne =>
      if (1000 <? nZ)%Z
      then Some ("t-SNE is recommended for datasets < 1000 samples. Current: "
                 ++ decimal n
                 ++ " samples. Consider using UMAP for better performance.")%string
      else None
  | auto => None
  end.

Section Orchestrator.

Variable M : JS.MathLib.
Variable Math_random : nat -> float.
(** The values that successive calls of [performance.now()] return. *)
Variable performance_now : nat -> float.

(** The [switch]: the projector that runs, and the name reported for it. *)
Definition runProjector (algorithm : AlgorithmType)
    (embeddings : list (list float)) (documents : list Document.t)
    (options : ProjectTo2DOptions.t)
  : AlgorithmType * Completion (list Point2D.t) :=
  match algorithm with
  | umap => (umap, Normal (uMAP M embeddings documents
                             (param options Params.umap)))
  | tsne => (tsne, Normal (tSNE M Math_random embeddings documents
                             (param options Params.tsne)))
  | pca => (pca, incrementalPCA embeddings documents
                   (param options Params.pca))
  | auto => (umap, Normal (uMAP M embeddings documents
                             (param options Params.umap)))
  end.

(** "Validate results": the counts [(validPoints, nanPoints, infPoints)].
    They are only written to the console. *)
Definition scanPoints (points : list Point2D.t) : nat * nat * nat :=
  fold_left (fun counts point =>
               let '(validPoints, nanPoints, infPoints) := counts in
               if JS.isNaN (Point2D.x point) || JS.isNaN (Point2D.y point)
               then (validPoints, S nanPoints, infPoints)
               else if negb (JS.isFinite (Point2D.x point))
                       || negb (JS.isFinite (Point2D.y point))
               then (validPoints, nanPoints, S infPoints)
               else (S validPoints, nanPoints, infPoints))
            points (0, 0, 0)%nat.

(** Console output is not modelled: the scan of the result has no other
    effect, and [points] is returned as the projector produced it. *)
Definition projectTo2D (embeddings : list (list float))
    (documents : list Document.t) (options : ProjectTo2DOptions.t)
  : Completion ProjectionResult.t :=
  match embeddings with
  | [] =>
      Normal {| ProjectionResult.points := [];
                ProjectionResult.algorithm := "No data";
                ProjectionResult.timeMs := 0;
                ProjectionResult.warning := None |}
  | [_] =>
      Normal {| ProjectionResult.points := [singlePoint documents];
                ProjectionResult.algorithm := "Single point";
                ProjectionResult.timeMs := 0;
                ProjectionResult.warning := None |}
  | _ =>
      let n := length embeddings in
      let algorithm :=
        chooseAlgorithm (ProjectTo2DOptions.algorithm options) n in
      let warning := sizeWarning algorithm n in
      let startTime := performance_now 0%nat in
      let '(algorithm, completion) :=
        runProjector algorithm embeddings documents options in
      let endTime := performance_now 1%nat in
      let timeMs := endTime - startTime in
      match completion with
      | Normal points =>
          Normal {| ProjectionResult.points := points;
                    ProjectionResult.algorithm := upperName algorithm;
                    ProjectionResult.timeMs := timeMs;
                    ProjectionResult.warning := warning |}
      | Throw_TypeError => Throw_TypeError
      end
  end.

End Orchestrator.

(** * The interface around the projection engine *)

(** ** components/UMAPParamsControl and App: what the interface announces *)

Module UMAPParamsControl.

(** "Compute auto n_neighbors based on the algorithm logic (must match
    uMAP.ts)". *)
Definition getAutoNeighbors (n : nat) : float :=
  if (n <? 50)%nat
  then JS.Math.max 3 (JS.Math.min 8
         (JS.Math.floor (JS.Math.sqrt (JS.of_nat n))))
  else if (n <? 200)%nat
  then JS.Math.floor (10 + JS.Math.sqrt (JS.of_nat n - 100) / 3)
  else JS.Math.min 15 (JS.Math.floor (JS.of_nat n / 50)).

(** "Compute auto n_epochs based on the algorithm logic (must match
    uMAP.ts)". *)
Definition getAutoEpochs (n : nat) : nat :=
  if (n <? 1000)%nat then 500%nat else 200%nat.

End UMAPParamsControl.

Module App.

(** "Determine which algorithm will actually be used for auto mode"; [data]
    is the loaded dataset, if any. *)
Definition getActualAlgorithm (algoSelect : AlgorithmType)
    (data : option (list (list float))) : AlgorithmType :=
  match algoSelect with
  | auto =>
      match data with
      | None => umap
      | Some embeddings =>
          if (8000 <? Z.of_nat (length embeddings))%Z then pca else umap
      end
  | chosen => chosen
  end.

End App.

(** ** hooks/useEmbeddings: reading a JSONL stream

    [loadFromUrl] and [handleFileUpload] run the same loop over the chunks of
    a stream.  A string is the list of its UTF-16 code units; the chunks are
    the strings that [decoder.decode(value, {stream: true})] returns.  The
    React state setters and the progress reports are not modelled: the loop
    is taken from the first [reader.read()] to [setData] or [setError]. *)

Module Ingest.

Definition jsstring := list N.

(** A string literal of the source. *)
Definition lit (s : string) : jsstring :=
  map N_of_ascii (list_ascii_of_string s).

(** The code units that [trim] removes: ECMAScript's WhiteSpace and
    LineTerminator. *)
Definition isWhiteSpace (c : N) : bool :=
  ((c =? 9) || (c =? 10) || (c =? 11) || (c =? 12) || (c =? 13)
   || (c =? 32) || (c =? 160) || (c =? 5760)
   || ((8192 <=? c) && (c <=? 8202))
   || (c =? 8232) || (c =? 8233) || (c =? 8239) || (c =? 8287)
   || (c =? 12288) || (c =? 65279))%N.

Fixpoint trimStart (s : jsstring) : jsstring :=
  match s with
  | c :: t => if isWhiteSpace c then trimStart t else s
  | [] => []
  end.

Definition trim (s : jsstring) : jsstring :=
  rev (trimStart (rev (trimStart s))).

(** [s.split('\n')]: never empty. *)
Fixpoint split (s : jsstring) : list jsstring :=
  match s with
  | [] => [[]]
  | c :: t =>
      if (c =? 10)%N then [] :: split t
      else match split t with
           | seg :: rest => (c :: seg) :: rest
           | [] => [[c]]
           end
  end.

(** [!s] on a string. *)
Definition isEmptyString (s : jsstring) : bool :=
  match s with [] => true | _ => false end.

(** What [JSON.parse] returns. *)
Unset Elimination Schemes.
Inductive Json : Type :=
| JNull
| JBool (b : bool)
| JNumber (x : float)
| JString (s : jsstring)
| JArray (items : list Json)
| JObject (members : list (jsstring * Json)).
Set Elimination Schemes.

Definition jsstring_eqb (a b : jsstring) : bool :=
  if list_eq_dec N.eq_dec a b then true else false.

(** [parsed.key] on a value other than [null]: [None] is [undefined]. *)
Definition getProp (parsed : Json) (key : jsstring) : option Json :=
  match parsed with
  | JObject members =>
      match find (fun m => jsstring_eqb (fst m) key) members with
      | Some m => Some (snd m)
      | None => None
      end
  | _ => None
  end.

Definition truthy (v : option Json) : bool :=
  match v with
  | None | Some JNull => false
  | Some (JBool b) => b
  | Some (JNumber x) => negb (is_nan x || is_zero x)
  | Some (JString s) => negb (isEmptyString s)
  | Some (JArray _) | Some (JObject _) => true
  end.

(** What the loop has collected: [embeddings], [documents] (title, text)
    and [lineNumber]. *)
Record Collected := {
  embeddings : list (list Json);
  documents : list (jsstring * jsstring);
  lineNumber : nat
}.

Definition nothing : Collected :=
  {| embeddings := []; documents := []; lineNumber := 0 |}.

(** How a load ends: [setData({embeddings, documents})] or
    [setError(err.message)]. *)
Inductive Outcome : Type :=
| Loaded (embeddings : list (list Json))
         (documents : list (jsstring * jsstring))
| Failed (message : jsstring).

Section Reader.

(** The runtime: [JSON.parse] (a value, or the message of its
    [SyntaxError]) and the message of the [TypeError] for a property read on
    [null]. *)
Variable JSON_parse : jsstring -> Json + jsstring.
Variable nullReadMessage : jsstring.

Definition invalidFormat (lineNumber : nat) (what : string) : jsstring :=
  lit "Invalid JSONL format at line " ++ lit (decimal lineNumber)
  ++ lit ": missing or invalid " ++ lit what.

(** [lineNumber++] and the body of the [try] for one line; [inl] is the
    message of what is thrown. *)
Definition ingestLine (line : jsstring) (c : Collected)
  : jsstring + Collected :=
  let lineNumber := S (lineNumber c) in
  match JSON_parse line with
  | inr syntaxError =>
      inl (lit "Invalid JSON at line " ++ lit (decimal lineNumber)
           ++ lit ": " ++ syntaxError)
  | inl JNull => inl nullReadMessage
  | inl parsed =>
      let embedding := getProp parsed (lit "embedding") in
      if negb (truthy embedding)
         || negb (match embedding with Some (JArray _) => true | _ => false end)
      then inl (invalidFormat lineNumber "embedding array")
      else
        match getProp parsed (lit "text") with
        | Some (JString text) =>
            match getProp parsed (lit "title") with
            | Some (JString title) =>
                inr {| embeddings :=
                         embeddings c
                         ++ [match embedding with
                             | Some (JArray items) => items
                             | _ => []
                             end];
                       documents := documents c ++ [(title, text)];
                       lineNumber := lineNumber |}
            | _ => inl (invalidFormat lineNumber "title field")
            end
        | _ => inl (invalidFormat lineNumber "text field")
        end
  end.

(** A [for] loop whose body may throw. *)
Fixpoint forEach {A : Type} (body : A -> Collected -> jsstring + Collected)
    (l : list A) (c : Collected) : jsstring + Collected :=
  match l with
  | [] => inr c
  | a :: t =>
      match body a c with
      | inl message => inl message
      | inr c' => forEach body t c'
      end
  end.

(** The body of the loop of [processText]: [lines[i].trim()], skipped when
    empty. *)
Definition completeLine (segment : jsstring) (c : Collected)
  : jsstring + Collected :=
  let line := trim segment in
  if isEmptyString line then inr c else ingestLine line c.

(** [processText(text)]: every line but the last, which is returned. *)
Definition processText (text : jsstring) (c : Collected)
  : jsstring + (Collected * jsstring) :=
  let lines := split text in
  match forEach completeLine (removelast lines) c with
  | inl message => inl message
  | inr c' => inr (c', last lines [])
  end.

(** The loop over [remainingLines] when the stream is done: here the line
    itself is parsed, and its [trim] only tested. *)
Definition remainingLine (line : jsstring) (c : Collected)
  : jsstring + Collected :=
  if isEmptyString (trim line) then inr c else ingestLine line c.

(** [readChunk], over the chunks still to come. *)
Fixpoint readChunk (chunks : list jsstring) (c : Collected)
    (buffer : jsstring) : Outcome :=
  match chunks with
  | [] =>
      let done :=
        if negb (isEmptyString (trim buffer))
        then forEach remainingLine (split (trim buffer)) c
        else inr c in
      match done with
      | inl message => Failed message
      | inr c' => Loaded (embeddings c') (documents c')
      end
  | chunk :: rest =>
      match processText (buffer ++ chunk) c with
      | inl message => Failed message
      | inr (c', buffer') => readChunk rest c' buffer'
      end
  end.

(** A whole load. *)
Definition load (chunks : list jsstring) : Outcome :=
  readChunk chunks nothing [].

End Reader.

End Ingest.

(** * What the properties are stated with *)

(** [pts] has one point per input vector, and the point at position [i]
    carries the index [i] and the label of [documents[i]]. *)
Definition inInputOrder (embeddings : list (list float))
    (documents : list Document.t) (pts : list Point2D.t) : Prop :=
  length pts = length embeddings
  /\ forall i p, nth_error pts i = Some p ->
       Point2D.index p = i
       /\ Point2D.title p = titleOf documents i
       /\ Point2D.text p = textOf documents i.

(** The sum of [P[i][j]] over the ordered pairs [i <> j]. *)
Definition sumOffDiagonal (P : list (list float)) : float :=
  let n := length P in
  sum_over (seq 0 n) (fun i => sum_over (others n i) (fun j => get2 P i j)).

(** Six vectors in the plane. *)
Definition sixVectors : list (list float) :=
  [[0; 0]; [1; 0]; [0; 1]; [5; 5]; [5; 6]; [2; 2.5]].

(** ** Concrete inputs and runtimes *)

Definition docA : Document.t := {| Document.title := "A"; Document.text := "a" |}.

(** A runtime whose [Math.random()] returns 0, 1/8, ..., 7/8, 0, ... *)
Definition randomA (k : nat) : float := JS.of_nat (k mod 8) / 8.

(** A runtime whose [Math.random()] returns 0, 1/2, 0, 1/2, ... *)
Definition randomB (k : nat) : float := JS.of_nat (k mod 2) / 2.

(** A clock that advances by one millisecond per reading. *)
Definition clock (k : nat) : float := JS.of_nat k.

Definition coordinates (pts : list Point2D.t) : list (float * float) :=
  map (fun p => (Point2D.x p, Point2D.y p)) pts.


(** Two near points and one at distance 100000: at the largest bandwidth the
    search allows (1000) the Gaussian kernel of the far point underflows to 0
    against both others. *)
Definition farApart : list (list float) := [[0]; [1]; [100000]].


(** The generator after [k] calls of [next]. *)
Definition afterDraws (k : nat) (rng : SeededRandom) : SeededRandom :=
  Nat.iter k (fun r => snd (next r)) rng.

(** Three vectors in the plane, and t-SNE options with ten iterations. *)
Definition threeVectors : list (list float) := [[0; 0]; [1; 0]; [0; 1]].

Definition tenIterations : option TSNEOptions.t :=
  Some {| TSNEOptions.perplexity := None;
          TSNEOptions.learningRate := None;
          TSNEOptions.iterations := Some 10%nat;
          TSNEOptions.earlyExaggeration := None;
          TSNEOptions.momentum := None |}.

(** [-bound <= v <= bound] *)
Definition within (bound v : float) : bool :=
  (- bound <=? v) && (v <=? bound).

(** A state with a single point, and a gradient with a NaN component. *)
Definition onePointState : TsneState :=
  {| ts_Y := [(0, 0)]; ts_gains := [(1, 1)]; ts_YStep := [(0, 0)];
     ts_draws := 0 |}.

(** [a] against [b] in the order of binary64 numbers; [None] when one of
    them is NaN. *)
Definition cmp (a b : float) : option comparison :=
  SFcompare (Prim2SF a) (Prim2SF b).

(** A graph whose keys are pairs [(a, b)] with [a < b < n], no pair twice. *)
Definition graphKeysOk (n : nat) (g : Graph) : Prop :=
  NoDup (map fst g)
  /\ Forall (fun key => (fst key < snd key < n)%nat) (map fst g).

(** The dataset cut to the dimension that the projectors read,
    [embeddings[0].length]. *)
Definition cutToDim (embeddings : list (list float)) : list (list float) :=
  map (firstn (length (row embeddings 0))) embeddings.

(** ** What the properties of the reader are stated with *)

Module IngestSpec.
Import Ingest.

Definition noNewline (s : jsstring) : Prop := Forall (fun c => c <> 10%N) s.

Definition startsClean (s : jsstring) : Prop :=
  match s with [] => True | c :: _ => isWhiteSpace c = false end.

(** How a pass over all the lines of a text ends. *)
Definition outcomeOf (done : jsstring + Collected) : Outcome :=
  match done with
  | inl message => Failed message
  | inr c => Loaded (embeddings c) (documents c)
  end.

(** The lines of a text that are not blank. *)
Definition nonBlankLines (text : jsstring) : list jsstring :=
  filter (fun segment => negb (isEmptyString (trim segment))) (split text).

(** The line [segment] holds the record with the vector [e] and the
    document [d] (title, text): its trimmed text parses to an object whose
    [embedding] is the array [e], whose [title] and [text] are the strings
    of [d]. *)
Definition recordOn (JSON_parse : jsstring -> Json + jsstring)
    (segment : jsstring) (e : list Json) (d : jsstring * jsstring) : Prop :=
  exists members,
    JSON_parse (trim segment) = inl (JObject members)
    /\ getProp (JObject members) (lit "embedding") = Some (JArray e)
    /\ getProp (JObject members) (lit "title") = Some (JString (fst d))
    /\ getProp (JObject members) (lit "text") = Some (JString (snd d)).

(** A runtime for examples: every line parses to a record that carries the
    line as its title and as its text, and the vector [[1]]. *)
Definition echoParse (line : jsstring) : Json + jsstring :=
  inl (JObject [(lit "embedding", JArray [JNumber 1]);
                (lit "title", JString line);
                (lit "text", JString line)]).

End IngestSpec.


(** * Properties *)

(** ** Loops keep what each round keeps *)

Lemma fold_left_invariant {A B : Type} (P : A -> Prop) (f : A -> B -> A)
    (l : list B) (a : A) :
  P a -> (forall a b, P a -> P (f a b)) -> P (fold_left f l a).
Proof.
  intros Ha Hstep. revert a Ha.
  induction l as [|b l IH]; intros a Ha; simpl; auto.
Qed.

Lemma iter_invariant {A : Type} (P : A -> Prop) (f : A -> A) (k : nat) (a : A) :
  P a -> (forall a, P a -> P (f a)) -> P (Nat.iter k f a).
Proof.
  intros Ha Hstep. induction k as [|k IH]; simpl; auto.
Qed.

(** ** Trivial inputs (C3, C2) *)

(** C3. On the empty dataset [projectTo2D] returns
    [{points: [], algorithm: "No data", timeMs: 0}], and on a one-element
    dataset a single point at the origin with the label "Single point" and
    [timeMs] 0, whatever the options, the runtime and the clock are: no
    projector takes part in either result. *)
Theorem C3_projectTo2D_trivial_inputs :
  forall (M : JS.MathLib) (Math_random performance_now : nat -> float)
         (documents : list Document.t) (options : ProjectTo2DOptions.t),
    projectTo2D M Math_random performance_now [] documents options
    = Normal {| ProjectionResult.points := [];
                ProjectionResult.algorithm := "No data";
                ProjectionResult.timeMs := 0;
                ProjectionResult.warning := None |}
    /\
    forall v : list float,
      projectTo2D M Math_random performance_now [v] documents options
      = Normal {| ProjectionResult.points :=
                    [ {| Point2D.x := 0; Point2D.y := 0;
                         Point2D.title := titleOf documents 0;
                         Point2D.text := textOf documents 0;
                         Point2D.index := 0 |} ];
                  ProjectionResult.algorithm := "Single point";
                  ProjectionResult.timeMs := 0;
                  ProjectionResult.warning := None |}.
Proof.
  intros. split; [reflexivity | intros v; reflexivity].
Qed.

(** C2, as the code has it.  On a one-element dataset [tSNE] and [uMAP],
    called directly, return exactly one point at (0, 0) with index 0, whose
    title and text are those of [documents[0]] (or the placeholders), and on
    the empty dataset they return the empty list; neither result depends on
    the options or on the runtime.  The label "Single point" is the
    [algorithm] field that [projectTo2D] sets (C3), not part of a point. *)
Theorem C2_tsne_umap_trivial_inputs :
  forall (M : JS.MathLib) (Math_random : nat -> float)
         (documents : list Document.t)
         (tsneOptions : option TSNEOptions.t)
         (umapOptions : option UMAPOptions.t),
    tSNE M Math_random [] documents tsneOptions = []
    /\ uMAP M [] documents umapOptions = []
    /\ forall v : list float,
         let single := {| Point2D.x := 0; Point2D.y := 0;
                          Point2D.title := titleOf documents 0;
                          Point2D.text := textOf documents 0;
                          Point2D.index := 0 |} in
         tSNE M Math_random [v] documents tsneOptions = [single]
         /\ uMAP M [v] documents umapOptions = [single].
Proof.
  intros. repeat split; reflexivity.
Qed.

(** C2 as stated fails.  On the one-element dataset [[1, 2, 3]] with the
    document titled "A": [incrementalPCA] runs its pipeline and returns a
    point whose coordinates are NaN, not (0, 0); on the empty dataset it
    throws instead of returning an empty result; and the point that [tSNE]
    and [uMAP] return is titled "A", not "Single point". *)
Lemma C2_counterexample :
  (exists p, incrementalPCA [[1; 2; 3]] [docA] None = Normal [p]
             /\ is_nan (Point2D.x p) = true /\ is_nan (Point2D.y p) = true)
  /\ incrementalPCA [] [] None = Throw_TypeError
  /\ map Point2D.title (tSNE RefMath.lib randomA [[1; 2; 3]] [docA] None)
     = ["A"%string]
  /\ map Point2D.title (uMAP RefMath.lib [[1; 2; 3]] [docA] None)
     = ["A"%string].
Proof.
  split; [ | repeat split; reflexivity].
  eexists. split; [vm_compute; reflexivity | split; reflexivity].
Qed.

(** ** The orchestrator on two or more vectors (C4, C5) *)

Lemma incrementalPCA_returns :
  forall embeddings documents options,
    embeddings <> [] ->
    exists pts, incrementalPCA embeddings documents options = Normal pts.
Proof.
  intros [|first rest] documents options H; [congruence|].
  unfold incrementalPCA. eexists. reflexivity.
Qed.

(** The general path of [projectTo2D], with its early returns peeled off. *)
Lemma projectTo2D_general :
  forall M Math_random performance_now embeddings documents options,
    (2 <= length embeddings)%nat ->
    projectTo2D M Math_random performance_now embeddings documents options
    = let n := length embeddings in
      let chosen :=
        chooseAlgorithm (ProjectTo2DOptions.algorithm options) n in
      let ran := runProjector M Math_random chosen embeddings documents
                              options in
      match snd ran with
      | Normal points =>
          Normal {| ProjectionResult.points := points;
                    ProjectionResult.algorithm := upperName (fst ran);
                    ProjectionResult.timeMs :=
                      performance_now 1%nat - performance_now 0%nat;
                    ProjectionResult.warning := sizeWarning chosen n |}
      | Throw_TypeError => Throw_TypeError
      end.
Proof.
  intros M rnd now [|e1 [|e2 rest]] documents options H;
    [simpl in H; lia | simpl in H; lia | ].
  unfold projectTo2D.
  destruct (runProjector M rnd _ _ documents options) as [name completion].
  reflexivity.
Qed.

(** C4. On two or more vectors, an explicit [options.algorithm] is the
    projector that runs; with ["auto"], PCA runs when [n > 8000] and UMAP
    otherwise, so [n = 8001] gives PCA and [n = 8000] gives UMAP. *)
Theorem C4_projectTo2D_algorithm_choice :
  forall (M : JS.MathLib) (Math_random performance_now : nat -> float)
         (embeddings : list (list float)) (documents : list Document.t)
         (options : ProjectTo2DOptions.t),
    (2 <= length embeddings)%nat ->
    exists r,
      projectTo2D M Math_random performance_now embeddings documents options
      = Normal r
      /\
      let n := Z.of_nat (length embeddings) in
      let byUMAP :=
        ProjectionResult.points r
        = uMAP M embeddings documents (param options Params.umap)
        /\ ProjectionResult.algorithm r = "UMAP"%string in
      let byTSNE :=
        ProjectionResult.points r
        = tSNE M Math_random embeddings documents (param options Params.tsne)
        /\ ProjectionResult.algorithm r = "TSNE"%string in
      let byPCA :=
        incrementalPCA embeddings documents (param options Params.pca)
        = Normal (ProjectionResult.points r)
        /\ ProjectionResult.algorithm r = "PCA"%string in
      match ProjectTo2DOptions.algorithm options with
      | umap => byUMAP
      | tsne => byTSNE
      | pca => byPCA
      | auto =>
          ((8000 < n)%Z -> byPCA) /\ ((n <= 8000)%Z -> byUMAP)
          /\ (n = 8001%Z -> byPCA) /\ (n = 8000%Z -> byUMAP)
      end.
Proof.
  intros M rnd now embeddings documents options Hn.
  rewrite (projectTo2D_general _ _ _ _ _ _ Hn). cbv zeta.
  destruct (incrementalPCA_returns embeddings documents
              (param options Params.pca)) as [pts Hpca].
  { destruct embeddings; [simpl in Hn; lia | discriminate]. }
  unfold chooseAlgorithm.
  destruct (ProjectTo2DOptions.algorithm options).
  - destruct (8000 <? Z.of_nat (length embeddings))%Z eqn:Hbig;
      unfold runProjector; cbn [fst snd].
    + rewrite Hpca. eexists. split; [reflexivity|]. cbn.
      apply Z.ltb_lt in Hbig. repeat split; auto; lia.
    + eexists. split; [reflexivity|]. cbn.
      apply Z.ltb_ge in Hbig. repeat split; auto; lia.
  - unfold runProjector; cbn [fst snd].
    eexists. split; [reflexivity|]. cbn. auto.
  - unfold runProjector; cbn [fst snd].
    eexists. split; [reflexivity|]. cbn. auto.
  - unfold runProjector; cbn [fst snd]. rewrite Hpca.
    eexists. split; [reflexivity|]. cbn. auto.
Qed.

(** C4 at a concrete input: the two vectors [[0], [1]] with ["auto"]. *)
Lemma C4_witness :
  exists r,
    projectTo2D RefMath.lib randomA clock [[0]; [1]] []
      {| ProjectTo2DOptions.algorithm := auto;
         ProjectTo2DOptions.params := None |} = Normal r
    /\ ProjectionResult.points r = uMAP RefMath.lib [[0]; [1]] [] None
    /\ ProjectionResult.algorithm r = "UMAP"%string.
Proof.
  destruct (C4_projectTo2D_algorithm_choice RefMath.lib randomA clock
              [[0]; [1]] []
              {| ProjectTo2DOptions.algorithm := auto;
                 ProjectTo2DOptions.params := None |})
    as [r [Hr Hchoice]].
  - simpl. lia.
  - exists r. split; [exact Hr|].
    cbv zeta in Hchoice. cbn [ProjectTo2DOptions.algorithm] in Hchoice.
    destruct Hchoice as (_ & Hsmall & _).
    apply Hsmall. simpl. lia.
Defined.

Lemma sizeWarning_spec :
  forall (algorithm : AlgorithmType) (n : nat),
    let nZ := Z.of_nat n in
    let mismatch :=
      (algorithm = pca /\ (nZ <= 1000)%Z)
      \/ (algorithm = umap /\ (8000 < nZ)%Z)
      \/ (algorithm = tsne /\ (1000 < nZ)%Z) in
    (mismatch -> exists w, sizeWarning algorithm n = Some w
                           /\ w <> EmptyString)
    /\ (~ mismatch -> sizeWarning algorithm n = None).
Proof.
  intros algorithm n nZ mismatch. subst mismatch nZ.
  unfold sizeWarning.
  destruct algorithm.
  - split; [intros [[H _]|[[H _]|[H _]]]; discriminate | reflexivity].
  - destruct (8000 <? Z.of_nat n)%Z eqn:E.
    + split; [intros _; eexists; split; [reflexivity | discriminate]|].
      apply Z.ltb_lt in E. intros H. exfalso. apply H. auto.
    + apply Z.ltb_ge in E.
      split; [intros [[H _]|[[_ H]|[H _]]]; try discriminate; lia
             | reflexivity].
  - destruct (1000 <? Z.of_nat n)%Z eqn:E.
    + split; [intros _; eexists; split; [reflexivity | discriminate]|].
      apply Z.ltb_lt in E. intros H. exfalso. apply H. auto.
    + apply Z.ltb_ge in E.
      split; [intros [[H _]|[[H _]|[_ H]]]; try discriminate; lia
             | reflexivity].
  - destruct (Z.of_nat n <=? 1000)%Z eqn:E.
    + split; [intros _; eexists; split; [reflexivity | discriminate]|].
      apply Z.leb_le in E. intros H. exfalso. apply H. auto.
    + apply Z.leb_gt in E.
      split; [intros [[_ H]|[[H _]|[H _]]]; try discriminate; lia
             | reflexivity].
Qed.

(** The projector that ran is the chosen one, and never ["auto"]. *)
Lemma runProjector_name :
  forall M Math_random requested n embeddings documents options,
    let chosen := chooseAlgorithm requested n in
    fst (runProjector M Math_random chosen embeddings documents options)
    = chosen /\ chosen <> auto.
Proof.
  intros M rnd requested n embeddings documents options.
  unfold chooseAlgorithm.
  destruct requested; cbn; try (split; [reflexivity | discriminate]).
  destruct (8000 <? Z.of_nat n)%Z; cbn; split;
    reflexivity || discriminate.
Qed.

(** C5. On two or more vectors the result carries a non-empty warning
    exactly when PCA ran on [n <= 1000] vectors, UMAP on [n > 8000], or
    t-SNE on [n > 1000], and no warning otherwise; so ["pca"] on 500
    vectors warns and ["pca"] on 9000 vectors does not. *)
Theorem C5_projectTo2D_warning :
  forall (M : JS.MathLib) (Math_random performance_now : nat -> float)
         (embeddings : list (list float)) (documents : list Document.t)
         (options : ProjectTo2DOptions.t),
    (2 <= length embeddings)%nat ->
    exists r,
      projectTo2D M Math_random performance_now embeddings documents options
      = Normal r
      /\
      let n := Z.of_nat (length embeddings) in
      let ran := ProjectionResult.algorithm r in
      let mismatch :=
        (ran = "PCA"%string /\ (n <= 1000)%Z)
        \/ (ran = "UMAP"%string /\ (8000 < n)%Z)
        \/ (ran = "TSNE"%string /\ (1000 < n)%Z) in
      let warns :=
        exists w, ProjectionResult.warning r = Some w /\ w <> EmptyString in
      (mismatch -> warns)
      /\ (~ mismatch -> ProjectionResult.warning r = None)
      /\ (ProjectTo2DOptions.algorithm options = pca -> n = 500%Z -> warns)
      /\ (ProjectTo2DOptions.algorithm options = pca -> n = 9000%Z ->
          ProjectionResult.warning r = None).
Proof.
  intros M rnd now embeddings documents options Hn.
  rewrite (projectTo2D_general _ _ _ _ _ _ Hn). cbv zeta.
  pose proof (runProjector_name M rnd (ProjectTo2DOptions.algorithm options)
                (length embeddings) embeddings documents options)
    as [Hname Hauto].
  pose proof (sizeWarning_spec
                (chooseAlgorithm (ProjectTo2DOptions.algorithm options)
                                 (length embeddings))
                (length embeddings)) as [Hwarn Hquiet].
  set (chosen := chooseAlgorithm (ProjectTo2DOptions.algorithm options)
                                 (length embeddings)) in *.
  assert (Hret : exists pts,
             snd (runProjector M rnd chosen embeddings documents options)
             = Normal pts).
  { destruct chosen; cbn; eauto.
    apply incrementalPCA_returns.
    destruct embeddings; [simpl in Hn; lia | discriminate]. }
  destruct Hret as [pts Hpts]. rewrite Hpts, Hname.
  eexists. split; [reflexivity|].
  cbn [ProjectionResult.algorithm ProjectionResult.warning].
  assert (Hsame :
    ((upperName chosen = "PCA"%string /\ (Z.of_nat (length embeddings) <= 1000)%Z)
     \/ (upperName chosen = "UMAP"%string /\ (8000 < Z.of_nat (length embeddings))%Z)
     \/ (upperName chosen = "TSNE"%string /\ (1000 < Z.of_nat (length embeddings))%Z))
    <->
    ((chosen = pca /\ (Z.of_nat (length embeddings) <= 1000)%Z)
     \/ (chosen = umap /\ (8000 < Z.of_nat (length embeddings))%Z)
     \/ (chosen = tsne /\ (1000 < Z.of_nat (length embeddings))%Z))).
  { destruct chosen; cbn; split;
      intros [[H ?]|[[H ?]|[H ?]]]; try discriminate; auto. }
  split; [intros H; apply Hwarn, Hsame, H|].
  split; [intros H; apply Hquiet; intros H'; apply H, Hsame, H'|].
  split.
  - intros Hreq H500. apply Hwarn. left.
    subst chosen. rewrite Hreq. cbn. split; [reflexivity | lia].
  - intros Hreq H9000. apply Hquiet.
    subst chosen. rewrite Hreq. cbn.
    intros [[_ H]|[[H _]|[H _]]]; try discriminate; lia.
Qed.

(** C5 at a concrete input: ["pca"] on the two vectors [[0], [1]] warns. *)
Lemma C5_witness :
  exists r w,
    projectTo2D RefMath.lib randomA clock [[0]; [1]] []
      {| ProjectTo2DOptions.algorithm := pca;
         ProjectTo2DOptions.params := None |} = Normal r
    /\ ProjectionResult.warning r = Some w /\ w <> EmptyString.
Proof.
  destruct (C5_projectTo2D_warning RefMath.lib randomA clock
              [[0]; [1]] []
              {| ProjectTo2DOptions.algorithm := pca;
                 ProjectTo2DOptions.params := None |})
    as [r [Hr Hwarning]].
  - simpl. lia.
  - cbv zeta in Hwarning. destruct Hwarning as (Hwarns & _).
    destruct Hwarns as [w Hw].
    + left. split; [|simpl; lia].
      rewrite (projectTo2D_general RefMath.lib randomA clock) in Hr
        by (simpl; lia).
      cbv zeta in Hr. unfold chooseAlgorithm, runProjector in Hr.
      cbn [ProjectTo2DOptions.algorithm fst snd] in Hr.
      destruct (incrementalPCA _ _ _); [|discriminate].
      injection Hr as <-. reflexivity.
    + exists r, w. split; [exact Hr | exact Hw].
Defined.

(** ** The shape of the returned points (C9) *)

Lemma setAt_length {A : Type} (l : list A) (i : nat) (v : A) :
  length (setAt l i v) = length l.
Proof.
  revert i. induction l as [|h t IH]; intros [|i]; simpl; auto.
Qed.

Lemma initLayout_length (n : nat) (rng : SeededRandom) :
  length (fst (initLayout n rng)) = n.
Proof.
  revert rng. induction n as [|n IH]; intros rng; [reflexivity|].
  cbn [initLayout].
  destruct (next rng) as [a rng1]. destruct (next rng1) as [b rng2].
  specialize (IH rng2). destruct (initLayout n rng2) as [Y rng3].
  cbn [fst length] in *. f_equal. exact IH.
Qed.

Lemma toPoints_inInputOrder :
  forall embeddings documents Y,
    length Y = length embeddings ->
    inInputOrder embeddings documents (toPoints documents Y).
Proof.
  intros embeddings documents Y HY. unfold inInputOrder, toPoints. split.
  - rewrite length_map, length_seq. exact HY.
  - intros i p Hp. rewrite nth_error_map in Hp.
    destruct (nth_error (seq 0 (length Y)) i) as [k|] eqn:Hk;
      [|discriminate].
    assert (Hi : (i < length (seq 0 (length Y)))%nat)
      by (apply nth_error_Some; congruence).
    rewrite length_seq in Hi.
    apply nth_error_nth with (d := 0%nat) in Hk.
    rewrite seq_nth in Hk by exact Hi. simpl in Hk. subst k.
    injection Hp as <-. simpl. auto.
Qed.

Lemma singlePoint_inInputOrder :
  forall v documents, inInputOrder [v] documents [singlePoint documents].
Proof.
  intros v documents. split; [reflexivity|].
  intros [|[|i]] p Hp; simpl in Hp; try discriminate.
  injection Hp as <-. simpl. auto.
Qed.

Lemma empty_inInputOrder : forall documents, inInputOrder [] documents [].
Proof.
  intros documents. split; [reflexivity|].
  intros [|i] p Hp; discriminate.
Qed.

Section LayoutLengths.

Variable M : JS.MathLib.
Variable Math_random : nat -> float.

Lemma tsne_layout_length :
  forall embeddings options,
    length (ts_Y (tsne_layout M Math_random embeddings options))
    = length embeddings.
Proof.
  intros embeddings options. unfold tsne_layout.
  apply fold_left_invariant
    with (P := fun st => length (ts_Y st) = length embeddings).
  - simpl. apply initLayout_length.
  - intros st iter _. unfold tsne_iteration, tsne_center. simpl.
    rewrite length_map, length_seq. reflexivity.
Qed.

Lemma addTo_length :
  forall Y i d v, length (addTo Y i d v) = length Y.
Proof. intros. unfold addTo. apply setAt_length. Qed.

Lemma umap_move_length :
  forall coeff alpha w j k Y,
    length (umap_move coeff alpha w j k Y) = length Y.
Proof.
  intros. unfold umap_move.
  apply fold_left_invariant with (P := fun Y' => length Y' = length Y);
    [reflexivity|].
  intros Y' d HY'. rewrite !addTo_length. exact HY'.
Qed.

Lemma umap_negativeSample_length :
  forall n alpha w j k st,
    length (fst (umap_negativeSample M n alpha w j k st))
    = length (fst st).
Proof.
  intros n alpha w j k [Y rng]. unfold umap_negativeSample.
  destruct (next rng) as [r rng'].
  destruct (_ || _); simpl; [reflexivity|].
  apply umap_move_length.
Qed.

Lemma umap_edgeStep_length :
  forall n edges alpha negativeSampleRate st edgeIdx,
    length (fst (umap_edgeStep M n edges alpha negativeSampleRate
                               st edgeIdx))
    = length (fst st).
Proof.
  intros n edges alpha negativeSampleRate [Y rng] edgeIdx.
  unfold umap_edgeStep.
  apply iter_invariant
    with (P := fun st' => length (fst st') = length Y).
  - simpl. apply umap_move_length.
  - intros st' Hst'. rewrite umap_negativeSample_length. exact Hst'.
Qed.

Lemma umap_epoch_length :
  forall n edges learningRate nEpochs negativeSampleRate st epoch,
    length (um_Y (umap_epoch M n edges learningRate nEpochs
                             negativeSampleRate st epoch))
    = length (um_Y st).
Proof.
  intros. unfold umap_epoch.
  destruct (seededShuffle (um_indices st) (um_rng st)) as [indices rng].
  match goal with
  | |- context [fold_left ?f ?l ?a] =>
      assert (H : length (fst (fold_left f l a)) = length (um_Y st))
  end.
  { apply fold_left_invariant
      with (P := fun st' => length (fst st') = length (um_Y st));
      [reflexivity|].
    intros st' idx Hst'. rewrite umap_edgeStep_length. exact Hst'. }
  destruct (fold_left _ indices _) as [Y rng']. exact H.
Qed.

Lemma umap_layout_length :
  forall embeddings options,
    length (um_Y (umap_layout M embeddings options)) = length embeddings.
Proof.
  intros embeddings options. unfold umap_layout.
  apply fold_left_invariant
    with (P := fun st => length (um_Y st) = length embeddings).
  - simpl. unfold umap_initial.
    pose proof (initLayout_length (length embeddings)
                  {| seed := generateSeed embeddings |}) as H.
    destruct (initLayout _ _) as [Y rng]. exact H.
  - intros st epoch Hst. rewrite umap_epoch_length. exact Hst.
Qed.

Lemma tSNE_inInputOrder :
  forall embeddings documents options,
    inInputOrder embeddings documents
                 (tSNE M Math_random embeddings documents options).
Proof.
  intros [|v [|v' rest]] documents options; unfold tSNE.
  - apply empty_inInputOrder.
  - apply singlePoint_inInputOrder.
  - apply toPoints_inInputOrder, tsne_layout_length.
Qed.

Lemma uMAP_inInputOrder :
  forall embeddings documents options,
    inInputOrder embeddings documents
                 (uMAP M embeddings documents options).
Proof.
  intros [|v [|v' rest]] documents options; unfold uMAP.
  - apply empty_inInputOrder.
  - apply singlePoint_inInputOrder.
  - apply toPoints_inInputOrder, umap_layout_length.
Qed.

End LayoutLengths.

Lemma incrementalPCA_inInputOrder :
  forall embeddings documents options,
    match incrementalPCA embeddings documents options with
    | Normal pts => inInputOrder embeddings documents pts
    | Throw_TypeError => embeddings = []
    end.
Proof.
  intros [|first rest] documents options; [reflexivity|].
  unfold incrementalPCA.
  apply toPoints_inInputOrder.
  unfold PCA.center. rewrite !length_map, length_seq. reflexivity.
Qed.

(** C9 fails for [incrementalPCA] on the empty dataset: [tSNE] and [uMAP]
    return the empty list there, by their guard [if (n === 0) return []];
    [incrementalPCA] has no such guard and throws on [embeddings[0].length],
    so it returns no list of length 0.  [projectTo2D] returns before any
    projector is called. *)
Theorem C9_incrementalPCA_throws_on_empty_dataset :
  forall (M : JS.MathLib) (Math_random performance_now : nat -> float)
         (documents : list Document.t)
         (tsneOptions : option TSNEOptions.t)
         (umapOptions : option UMAPOptions.t)
         (pcaOptions : option PCAOptions.t)
         (params : option Params.t),
    tSNE M Math_random [] documents tsneOptions = []
    /\ uMAP M [] documents umapOptions = []
    /\ incrementalPCA [] documents pcaOptions = Throw_TypeError
    /\ exists r,
         projectTo2D M Math_random performance_now [] documents
           {| ProjectTo2DOptions.algorithm := pca;
              ProjectTo2DOptions.params := params |} = Normal r
         /\ ProjectionResult.points r = [].
Proof.
  intros M rnd now documents tsneOptions umapOptions pcaOptions params.
  split; [reflexivity|]. split; [reflexivity|]. split; [reflexivity|].
  eexists. split; reflexivity.
Qed.

(** X21. Every projector returns one point per input vector, in input
    order: the point at position [i] has index [i] and the label of
    [documents[i]].  [tSNE] and [uMAP] do so on every dataset,
    [incrementalPCA] on every dataset that is not empty.  [projectTo2D]
    always returns, its points have the same shape, and on two or more
    vectors they are exactly the points of the projector it names, whatever
    their coordinates are. *)
Theorem points_in_input_order :
  forall (M : JS.MathLib) (Math_random performance_now : nat -> float)
         (embeddings : list (list float)) (documents : list Document.t)
         (options : ProjectTo2DOptions.t)
         (tsneOptions : option TSNEOptions.t)
         (umapOptions : option UMAPOptions.t)
         (pcaOptions : option PCAOptions.t),
    inInputOrder embeddings documents
      (tSNE M Math_random embeddings documents tsneOptions)
    /\ inInputOrder embeddings documents
         (uMAP M embeddings documents umapOptions)
    /\ (embeddings <> [] ->
        exists pts,
          incrementalPCA embeddings documents pcaOptions = Normal pts
          /\ inInputOrder embeddings documents pts)
    /\ exists r,
         projectTo2D M Math_random performance_now embeddings documents
                     options = Normal r
         /\ inInputOrder embeddings documents (ProjectionResult.points r)
         /\ ((2 <= length embeddings)%nat ->
             (ProjectionResult.algorithm r = "UMAP"%string
              /\ ProjectionResult.points r
                 = uMAP M embeddings documents (param options Params.umap))
             \/ (ProjectionResult.algorithm r = "TSNE"%string
                 /\ ProjectionResult.points r
                    = tSNE M Math_random embeddings documents
                           (param options Params.tsne))
             \/ (ProjectionResult.algorithm r = "PCA"%string
                 /\ incrementalPCA embeddings documents
                                   (param options Params.pca)
                    = Normal (ProjectionResult.points r))).
Proof.
  intros M rnd now embeddings documents options tsneOptions umapOptions
         pcaOptions.
  split; [apply tSNE_inInputOrder|].
  split; [apply uMAP_inInputOrder|].
  split.
  { intros Hne.
    pose proof (incrementalPCA_inInputOrder embeddings documents pcaOptions)
      as Hpca.
    destruct (incrementalPCA embeddings documents pcaOptions) as [pts|];
      [exists pts; split; [reflexivity | exact Hpca] | contradiction]. }
  destruct embeddings as [|v [|v' rest]].
  - eexists. split; [reflexivity|]. split; [apply empty_inInputOrder|].
    simpl. lia.
  - eexists. split; [reflexivity|].
    split; [apply singlePoint_inInputOrder|]. simpl. lia.
  - set (embeddings := v :: v' :: rest).
    assert (Hn : (2 <= length embeddings)%nat) by (simpl; lia).
    rewrite (projectTo2D_general _ _ _ _ _ _ Hn). cbv zeta.
    pose proof (incrementalPCA_inInputOrder embeddings documents
                  (param options Params.pca)) as Hpca.
    destruct (chooseAlgorithm (ProjectTo2DOptions.algorithm options)
                              (length embeddings));
      unfold runProjector; cbn [fst snd].
    + eexists. split; [reflexivity|].
      split; [apply uMAP_inInputOrder | intros _; left; split; reflexivity].
    + eexists. split; [reflexivity|].
      split; [apply uMAP_inInputOrder | intros _; left; split; reflexivity].
    + eexists. split; [reflexivity|].
      split; [apply tSNE_inInputOrder
             | intros _; right; left; split; reflexivity].
    + destruct (incrementalPCA embeddings documents
                  (param options Params.pca)) as [pts|]; [|discriminate].
      eexists. split; [reflexivity|].
      split; [exact Hpca | intros _; right; right; split; reflexivity].
Qed.

(** The scan does not hold a result back: ["pca"] on two equal vectors
    yields two points with NaN coordinates, the scan counts them, and
    [projectTo2D] returns them. *)
Example projectTo2D_returns_invalid_points :
  exists r,
    projectTo2D RefMath.lib randomA clock [[1]; [1]] [docA; docA]
      {| ProjectTo2DOptions.algorithm := pca;
         ProjectTo2DOptions.params := None |} = Normal r
    /\ map (fun p => is_nan (Point2D.x p) && is_nan (Point2D.y p))
           (ProjectionResult.points r) = [true; true]
    /\ scanPoints (ProjectionResult.points r) = (0, 2, 0)%nat
    /\ map Point2D.index (ProjectionResult.points r) = [0; 1]%nat.
Proof.
  eexists. split; [vm_compute; reflexivity|]. repeat split.
Qed.

(** ** UMAP's default neighbour count between 50 and 99 vectors (C10) *)



Section NoNeighbours.

Variable M : JS.MathLib.





End NoNeighbours.



(** ** Where the random draws come from (C1) *)

(** [uMAP] and [incrementalPCA] take no [Math.random]: their models have no
    such parameter, and so has [projectTo2D] whenever it runs one of them. *)
Lemma projectTo2D_points_without_tsne :
  forall M random1 random2 now1 now2 embeddings documents options,
    ProjectTo2DOptions.algorithm options <> tsne ->
    match projectTo2D M random1 now1 embeddings documents options,
          projectTo2D M random2 now2 embeddings documents options with
    | Normal r1, Normal r2 =>
        ProjectionResult.points r1 = ProjectionResult.points r2
    | Throw_TypeError, Throw_TypeError => True
    | _, _ => False
    end.
Proof.
  intros M random1 random2 now1 now2 [|v [|v' rest]] documents options Hreq;
    try reflexivity.
  unfold projectTo2D, chooseAlgorithm, runProjector.
  destruct (ProjectTo2DOptions.algorithm options); try congruence.
  - destruct (8000 <? _)%Z; [|reflexivity].
    destruct (incrementalPCA _ _ _); [reflexivity | exact I].
  - reflexivity.
  - destruct (incrementalPCA _ _ _); [reflexivity | exact I].
Qed.

(** C1 fails for [tSNE].  On [farApart], with the default options, the row
    of the far point is 0/0 = NaN, every gradient is NaN, and every point is
    reset in each of the 1500 iterations with two values of [Math.random()]
    (9000 draws).  The returned layout is made of those draws: two runs on
    the same input return different coordinates. *)
Theorem C1_tsne_draws_from_Math_random :
  let runA := tsne_layout RefMath.lib randomA farApart None in
  let runB := tsne_layout RefMath.lib randomB farApart None in
  tSNE RefMath.lib randomA farApart [] None = toPoints [] (ts_Y runA)
  /\ tSNE RefMath.lib randomB farApart [] None = toPoints [] (ts_Y runB)
  /\ (ts_Y runA, Z.of_nat (ts_draws runA))
     = ([(-0.0025000000000000001, -0.0025000000000000001); (0, 0);
         (0.0025000000000000001, 0.0024999999999999996)], 9000%Z)
  /\ (ts_Y runB, Z.of_nat (ts_draws runB))
     = ([(0, 0); (0, 0); (0, 0)], 9000%Z).
Proof.
  intros runA runB.
  split; [reflexivity|]. split; [reflexivity|].
  split; vm_compute; reflexivity.
Qed.

(** ** The joint probabilities of t-SNE (C6) *)

(** On an ordinary dataset the sum is 1 up to rounding. *)
Example tsne_P_sum_sixVectors :
  (abs (sumOffDiagonal (tsne_P RefMath.lib sixVectors None) - 1) <=? 0x1p-50)
  = true.
Proof. vm_compute. reflexivity. Qed.

(** C6 fails on [farApart]: the kernel row of the far point sums to 0, its
    normalisation divides 0 by 0, and the entries of [P] that involve the far
    point are NaN; so is the sum, which is within no tolerance of 1. *)
Theorem C6_tsne_P_sum_nan :
  tsne_similarities RefMath.lib farApart None
  = [[0; 1; 0]; [1; 0; 0]; [nan; nan; 0]]
  /\ is_nan (sumOffDiagonal (tsne_P RefMath.lib farApart None)) = true
  /\ forall tolerance : float,
       (abs (sumOffDiagonal (tsne_P RefMath.lib farApart None) - 1)
        <=? tolerance) = false.
Proof.
  split; [vm_compute; reflexivity|].
  split; [vm_compute; reflexivity|].
  intros tolerance.
  replace (abs (sumOffDiagonal (tsne_P RefMath.lib farApart None) - 1))
    with nan by (vm_compute; reflexivity).
  rewrite FloatAxioms.leb_spec. reflexivity.
Qed.

(** ** The weights of the fuzzy graph (C7) *)

(** Every retained edge has a positive weight: this is the filter
    [weight > 0], which also drops NaN.  The bound [w <= 1] is a statement on
    the rounding of [p + q - p * q] and on the accuracy of the runtime's
    [Math.exp], which the code does not determine. *)
Lemma umap_edges_weight_positive :
  forall (M : JS.MathLib) (embeddings : list (list float))
         (options : option UMAPOptions.t),
    Forall (fun e => (0 <? weight e) = true)
           (umap_edges M embeddings options).
Proof.
  intros M embeddings options. unfold umap_edges, umap_edgesOf.
  apply Forall_forall. intros e Hin.
  apply in_map_iff in Hin. destruct Hin as [[key w] [<- Hin]].
  apply filter_In in Hin. destruct Hin as [_ Hw]. exact Hw.
Qed.

Example umap_edges_sixVectors :
  forallb (fun e => (0 <? weight e) && (weight e <=? 1))
          (umap_edges RefMath.lib sixVectors None) = true.
Proof. vm_compute. reflexivity. Qed.

(** ** Non-finite coordinates during the optimisation (C8) *)


(** * Further properties of the program *)

(** ** The seed and the generator *)

Lemma ToUint32_range : forall z, (0 <= JS.ToUint32 z < 2 ^ 32)%Z.
Proof. intros z. unfold JS.ToUint32. apply Z.mod_pos_bound. lia. Qed.

Lemma ushr_0_range : forall z, (0 <= JS.ushr z 0 < 2 ^ 32)%Z.
Proof.
  intros z. unfold JS.ushr. rewrite Z.shiftr_0_r. apply ToUint32_range.
Qed.

Lemma fold_left_concat {A B : Type} (f : A -> B -> A) (rows : list (list B)) :
  forall a,
    fold_left (fun acc row => fold_left f row acc) rows a
    = fold_left f (concat rows) a.
Proof.
  induction rows as [|row rows IH]; intros a; simpl; [reflexivity|].
  rewrite fold_left_app. apply IH.
Qed.

(** X1. The seed hashes the coordinates in dataset order and nothing else:
    where one vector ends and the next begins does not enter it, so a
    dataset and its flattening into a single vector have the same seed. *)
Theorem generateSeed_flattening :
  forall embeddings : list (list float),
    generateSeed embeddings = generateSeed [concat embeddings].
Proof.
  intros embeddings. unfold generateSeed. f_equal. f_equal.
  rewrite fold_left_concat. cbn [fold_left].
  reflexivity.
Qed.

(** X2. The seed is an unsigned 32-bit integer, and so is the numerator of
    every number that [next] returns: [next] yields [u / 2^32] with
    [0 <= u < 2^32]. *)
Theorem generateSeed_next_uint32 :
  forall (embeddings : list (list float)) (rng : SeededRandom),
    (exists z, (0 <= z < 2 ^ 32)%Z /\ generateSeed embeddings = JS.of_Z z)
    /\ (exists u, (0 <= u < 2 ^ 32)%Z
                  /\ fst (next rng) = JS.of_Z u / 4294967296).
Proof.
  intros embeddings rng. split.
  - unfold generateSeed. eexists. split; [apply ushr_0_range | reflexivity].
  - unfold next. cbn [fst]. eexists.
    split; [apply ushr_0_range | reflexivity].
Qed.

Lemma shuffleFrom_length :
  forall i array rng, length (fst (shuffleFrom i array rng)) = length array.
Proof.
  induction i as [|i IH]; intros array rng; [reflexivity|].
  cbn [shuffleFrom]. destruct (next rng) as [r rng'].
  rewrite IH, !setAt_length. reflexivity.
Qed.

Lemma shuffleFrom_draws :
  forall i array rng, snd (shuffleFrom i array rng) = afterDraws i rng.
Proof.
  induction i as [|i IH]; intros array rng; [reflexivity|].
  cbn [shuffleFrom].
  assert (Hiter : afterDraws (S i) rng = afterDraws i (snd (next rng))).
  { unfold afterDraws. rewrite Nat.iter_succ_r. reflexivity. }
  rewrite Hiter. destruct (next rng) as [r rng']. apply IH.
Qed.

(** X3. [seededShuffle] keeps the length of the array and draws exactly
    [length - 1] numbers from the generator (none for an array of at most one
    element, which comes back unchanged). *)
Theorem seededShuffle_length_draws :
  forall (array : list nat) (rng : SeededRandom),
    length (fst (seededShuffle array rng)) = length array
    /\ snd (seededShuffle array rng) = afterDraws (length array - 1) rng
    /\ ((length array <= 1)%nat -> seededShuffle array rng = (array, rng)).
Proof.
  intros array rng. unfold seededShuffle.
  split; [apply shuffleFrom_length|].
  split; [apply shuffleFrom_draws|].
  intros Hlen. replace (length array - 1)%nat with 0%nat by lia.
  reflexivity.
Qed.

(** ** The orchestrator: scan, titles, warnings *)

Lemma scanPoints_fold_counts :
  forall points v n i,
    let '(v', n', i') :=
      fold_left (fun counts point =>
               let '(validPoints, nanPoints, infPoints) := counts in
               if JS.isNaN (Point2D.x point) || JS.isNaN (Point2D.y point)
               then (validPoints, S nanPoints, infPoints)
               else if negb (JS.isFinite (Point2D.x point))
                       || negb (JS.isFinite (Point2D.y point))
               then (validPoints, nanPoints, S infPoints)
               else (S validPoints, nanPoints, infPoints))
            points (v, n, i) in
    (v' + n' + i' = v + n + i + length points)%nat
    /\ (n <= n' /\ i <= i')%nat
    /\ ((n' = n /\ i' = i)
        <-> Forall (fun p => is_finite (Point2D.x p) = true
                             /\ is_finite (Point2D.y p) = true) points).
Proof.
  induction points as [|p points IH]; intros v n i.
  - cbn. split; [lia|]. split; [lia|]. split; auto.
  - cbn [fold_left length].
    unfold JS.isNaN, JS.isFinite, is_finite.
    destruct (is_nan (Point2D.x p)) eqn:Hx; cbn [orb negb].
    { specialize (IH v (S n) i).
      destruct (fold_left _ points _) as [[v' n'] i'].
      destruct IH as (Hsum & Hmono & _).
      split; [lia|]. split; [lia|]. split; [lia|].
      intros H. inversion H as [|? ? [Hfx _] _]. unfold is_finite in Hfx.
      rewrite ?Hx, ?Hix in Hfx. discriminate. }
    destruct (is_nan (Point2D.y p)) eqn:Hy; cbn [orb negb].
    { specialize (IH v (S n) i).
      destruct (fold_left _ points _) as [[v' n'] i'].
      destruct IH as (Hsum & Hmono & _).
      split; [lia|]. split; [lia|]. split; [lia|].
      intros H. inversion H as [|? ? [_ Hfy] _]. unfold is_finite in Hfy.
      rewrite ?Hy, ?Hiy in Hfy. discriminate. }
    destruct (is_infinity (Point2D.x p)) eqn:Hix; cbn [orb negb].
    { specialize (IH v n (S i)).
      destruct (fold_left _ points _) as [[v' n'] i'].
      destruct IH as (Hsum & Hmono & _).
      split; [lia|]. split; [lia|]. split; [lia|].
      intros H. inversion H as [|? ? [Hfx _] _]. unfold is_finite in Hfx.
      rewrite ?Hx, ?Hix in Hfx. discriminate. }
    destruct (is_infinity (Point2D.y p)) eqn:Hiy; cbn [orb negb].
    { specialize (IH v n (S i)).
      destruct (fold_left _ points _) as [[v' n'] i'].
      destruct IH as (Hsum & Hmono & _).
      split; [lia|]. split; [lia|]. split; [lia|].
      intros H. inversion H as [|? ? [_ Hfy] _]. unfold is_finite in Hfy.
      rewrite ?Hy, ?Hiy in Hfy. discriminate. }
    specialize (IH (S v) n i).
    destruct (fold_left _ points _) as [[v' n'] i'].
    destruct IH as (Hsum & Hmono & Hiff).
    split; [lia|]. split; [lia|]. split.
    + intros H. constructor; [|apply Hiff, H].
      unfold is_finite. rewrite Hx, Hy, Hix, Hiy. split; reflexivity.
    + intros H. inversion H. apply Hiff. assumption.
Qed.

(** X4. The scan of [projectTo2D] sorts every point into exactly one of its
    three counters, and it counts no NaN and no infinite point exactly when
    both coordinates of every point are finite. *)
Theorem scanPoints_partition :
  forall points : list Point2D.t,
    let '(validPoints, nanPoints, infPoints) := scanPoints points in
    (validPoints + nanPoints + infPoints = length points)%nat
    /\ ((nanPoints = 0 /\ infPoints = 0)%nat
        <-> Forall (fun p => is_finite (Point2D.x p) = true
                             /\ is_finite (Point2D.y p) = true) points).
Proof.
  intros points. unfold scanPoints.
  pose proof (scanPoints_fold_counts points 0 0 0) as H.
  destruct (fold_left _ points _) as [[v n] i].
  destruct H as (Hsum & _ & Hiff). split; [lia | exact Hiff].
Qed.

Lemma titleOf_not_empty :
  forall documents i, titleOf documents i <> EmptyString.
Proof.
  intros documents i. unfold titleOf, placeholder.
  destruct (nth_error documents i) as [d|]; [|discriminate].
  destruct (Document.title d) eqn:Ht; cbn [is_empty]; discriminate.
Qed.

Lemma inInputOrder_titles :
  forall embeddings documents pts,
    inInputOrder embeddings documents pts ->
    Forall (fun p => Point2D.title p <> EmptyString) pts.
Proof.
  intros embeddings documents pts [_ Hpts]. apply Forall_forall.
  intros p Hin. apply In_nth_error in Hin. destruct Hin as [i Hi].
  destruct (Hpts i p Hi) as (_ & Ht & _). rewrite Ht.
  apply titleOf_not_empty.
Qed.

(** [projectTo2D] returns, and what it returns is in input order. *)
Lemma projectTo2D_inInputOrder :
  forall M Math_random performance_now embeddings documents options,
  exists r,
    projectTo2D M Math_random performance_now embeddings documents options
    = Normal r
    /\ inInputOrder embeddings documents (ProjectionResult.points r)
    /\ ProjectionResult.warning r
       = match embeddings with
         | [] | [_] => None
         | _ => sizeWarning
                  (chooseAlgorithm (ProjectTo2DOptions.algorithm options)
                                   (length embeddings))
                  (length embeddings)
         end
    /\ ProjectionResult.algorithm r
       = match embeddings with
         | [] => "No data"%string
         | [_] => "Single point"%string
         | _ => match chooseAlgorithm (ProjectTo2DOptions.algorithm options)
                                      (length embeddings) with
                | auto => "UMAP"%string
                | chosen => upperName chosen
                end
         end.
Proof.
  intros M rnd now embeddings documents options.
  destruct embeddings as [|v [|v' rest]].
  - eexists. split; [reflexivity|].
    split; [apply empty_inInputOrder | split; reflexivity].
  - eexists. split; [reflexivity|].
    split; [apply singlePoint_inInputOrder | split; reflexivity].
  - set (embeddings := v :: v' :: rest).
    assert (Hn : (2 <= length embeddings)%nat) by (simpl; lia).
    rewrite (projectTo2D_general _ _ _ _ _ _ Hn). cbv zeta.
    pose proof (incrementalPCA_inInputOrder embeddings documents
                  (param options Params.pca)) as Hpca.
    destruct (chooseAlgorithm (ProjectTo2DOptions.algorithm options)
                              (length embeddings));
      unfold runProjector; cbn [fst snd].
    + eexists. split; [reflexivity|].
      split; [apply uMAP_inInputOrder | split; reflexivity].
    + eexists. split; [reflexivity|].
      split; [apply uMAP_inInputOrder | split; reflexivity].
    + eexists. split; [reflexivity|].
      split; [apply tSNE_inInputOrder | split; reflexivity].
    + destruct (incrementalPCA embeddings documents
                  (param options Params.pca)) as [pts|]; [|discriminate].
      eexists. split; [reflexivity|].
      split; [exact Hpca | split; reflexivity].
Qed.

(** X5. No point that [projectTo2D] returns has an empty title: a document
    without a title, or without an entry at all, gets the placeholder. *)
Theorem projectTo2D_titles_not_empty :
  forall (M : JS.MathLib) (Math_random performance_now : nat -> float)
         (embeddings : list (list float)) (documents : list Document.t)
         (options : ProjectTo2DOptions.t),
  exists r,
    projectTo2D M Math_random performance_now embeddings documents options
    = Normal r
    /\ Forall (fun p => Point2D.title p <> EmptyString)
              (ProjectionResult.points r).
Proof.
  intros M rnd now embeddings documents options.
  destruct (projectTo2D_inInputOrder M rnd now embeddings documents options)
    as [r (Hr & Horder & _)].
  exists r. split; [exact Hr|].
  eapply inInputOrder_titles, Horder.
Qed.

(** X6. With [algorithm = "auto"] the result never carries a warning, on
    any dataset: the size rule picks PCA only above 8000 vectors and UMAP
    only up to 8000. *)
Theorem projectTo2D_auto_never_warns :
  forall (M : JS.MathLib) (Math_random performance_now : nat -> float)
         (embeddings : list (list float)) (documents : list Document.t)
         (params : option Params.t),
  exists r,
    projectTo2D M Math_random performance_now embeddings documents
      {| ProjectTo2DOptions.algorithm := auto;
         ProjectTo2DOptions.params := params |} = Normal r
    /\ ProjectionResult.warning r = None.
Proof.
  intros M rnd now embeddings documents params.
  destruct (projectTo2D_inInputOrder M rnd now embeddings documents
              {| ProjectTo2DOptions.algorithm := auto;
                 ProjectTo2DOptions.params := params |})
    as [r (Hr & _ & Hwarning & _)].
  exists r. split; [exact Hr|]. rewrite Hwarning.
  destruct embeddings as [|v [|v' rest]]; try reflexivity.
  cbn [ProjectTo2DOptions.algorithm]. unfold chooseAlgorithm, sizeWarning.
  destruct (8000 <? Z.of_nat (length (v :: v' :: rest)))%Z eqn:Hbig.
  - apply Z.ltb_lt in Hbig.
    destruct (Z.of_nat (length (v :: v' :: rest)) <=? 1000)%Z eqn:Hsmall;
      [apply Z.leb_le in Hsmall; lia | reflexivity].
  - reflexivity.
Qed.

(** X7. The algorithm that the interface announces for the current
    selection is the one [projectTo2D] runs on the loaded dataset, as soon
    as it holds two vectors. *)
Theorem getActualAlgorithm_is_the_one_run :
  forall (M : JS.MathLib) (Math_random performance_now : nat -> float)
         (embeddings : list (list float)) (documents : list Document.t)
         (algoSelect : AlgorithmType) (params : option Params.t),
    (2 <= length embeddings)%nat ->
    exists r,
      projectTo2D M Math_random performance_now embeddings documents
        {| ProjectTo2DOptions.algorithm := algoSelect;
           ProjectTo2DOptions.params := params |} = Normal r
      /\ ProjectionResult.algorithm r
         = upperName (App.getActualAlgorithm algoSelect (Some embeddings)).
Proof.
  intros M rnd now embeddings documents algoSelect params Hn.
  destruct (projectTo2D_inInputOrder M rnd now embeddings documents
              {| ProjectTo2DOptions.algorithm := algoSelect;
                 ProjectTo2DOptions.params := params |})
    as [r (Hr & _ & _ & Hlabel)].
  exists r. split; [exact Hr|]. rewrite Hlabel.
  destruct embeddings as [|v [|v' rest]];
    [simpl in Hn; lia | simpl in Hn; lia |].
  cbn [ProjectTo2DOptions.algorithm].
  unfold chooseAlgorithm, App.getActualAlgorithm.
  destruct algoSelect; try reflexivity.
  destruct (8000 <? _)%Z; reflexivity.
Qed.

Lemma getActualAlgorithm_witness :
  exists r,
    projectTo2D RefMath.lib randomA clock [[0]; [1]] []
      {| ProjectTo2DOptions.algorithm := auto;
         ProjectTo2DOptions.params := None |} = Normal r
    /\ ProjectionResult.algorithm r
       = upperName (App.getActualAlgorithm auto (Some [[0]; [1]])).
Proof.
  apply (getActualAlgorithm_is_the_one_run RefMath.lib randomA clock
           [[0]; [1]] [] auto None).
  simpl. lia.
Defined.

(** X8. The neighbour count and the epoch count that the UMAP panel shows
    as "auto" are the defaults that [uMAP] uses when the option is unset,
    for every dataset size. *)
Theorem umap_panel_defaults_match :
  forall (n : nat) (options : option UMAPOptions.t),
    (opt options UMAPOptions.nNeighbors
         (UMAPParamsControl.getAutoNeighbors n)
     = umap_nNeighbors n options)
    /\ (opt options UMAPOptions.nEpochs (UMAPParamsControl.getAutoEpochs n)
        = umap_nEpochs n options)
    /\ UMAPParamsControl.getAutoNeighbors n = umap_nNeighbors n None
    /\ UMAPParamsControl.getAutoEpochs n = umap_nEpochs n None.
Proof.
  intros n options. repeat split; reflexivity.
Qed.

(** ** UMAP: neighbours and the fuzzy graph *)

Lemma others_spec :
  forall n i j, In j (others n i) <-> (j < n /\ j <> i)%nat.
Proof.
  intros n i j. unfold others. rewrite filter_In, in_seq, negb_true_iff.
  rewrite Nat.eqb_neq. split; intros [H1 H2]; split; auto; lia.
Qed.

Lemma others_NoDup : forall n i, NoDup (others n i).
Proof. intros n i. apply NoDup_filter, seq_NoDup. Qed.

Lemma insertByDist_perm :
  forall a l, Permutation (insertByDist a l) (a :: l).
Proof.
  intros a l. induction l as [|b t IH]; cbn [insertByDist]; [reflexivity|].
  destruct (0 <? snd a - snd b); [|reflexivity].
  rewrite IH. apply perm_swap.
Qed.

Lemma sortByDist_perm :
  forall l : list (nat * float), Permutation (sortByDist l) l.
Proof.
  intros l. unfold sortByDist.
  induction l as [|a l IH]; cbn [fold_right]; [reflexivity|].
  rewrite insertByDist_perm. constructor. exact IH.
Qed.

(** X9. Sorting the candidate neighbours by distance keeps every candidate
    exactly once, whatever the distances are (NaN included). *)
Theorem sortByDist_permutation :
  forall l : list (nat * float), Permutation (sortByDist l) l.
Proof.
  exact sortByDist_perm.
Qed.

Lemma firstn_Forall {A : Type} (P : A -> Prop) :
  forall k l, Forall P l -> Forall P (firstn k l).
Proof.
  intros k l H. apply Forall_forall. intros x Hin.
  rewrite Forall_forall in H. apply H.
  rewrite <- (firstn_skipn k l). apply in_or_app. left. exact Hin.
Qed.

Lemma firstn_NoDup {A : Type} :
  forall k (l : list A), NoDup l -> NoDup (firstn k l).
Proof.
  intros k l H. rewrite <- (firstn_skipn k l) in H.
  apply NoDup_app_remove_r in H. exact H.
Qed.

Lemma umap_knn_among_others :
  forall (distances : list (list float)) (n : nat) (nNeighbors : float)
         (i : nat),
    let knn := umap_knn distances n nNeighbors i in
    NoDup (map fst knn)
    /\ Forall (fun p => (fst p < n)%nat /\ fst p <> i
                        /\ snd p = get2 distances i (fst p)) knn
    /\ (length knn <= length (others n i))%nat.
Proof.
  intros distances n nNeighbors i knn. subst knn. unfold umap_knn, slice0.
  set (candidates := map (fun j => (j, get2 distances i j)) (others n i)).
  set (stop := Z.to_nat _).
  pose proof (sortByDist_perm candidates) as Hperm.
  assert (Hfst : map fst candidates = others n i).
  { subst candidates. rewrite map_map. cbn [fst]. apply map_id. }
  split; [|split].
  - rewrite <- firstn_map. apply firstn_NoDup.
    eapply Permutation_NoDup;
      [apply Permutation_map, Permutation_sym, Hperm|].
    rewrite Hfst. apply others_NoDup.
  - apply firstn_Forall. apply Forall_forall. intros p Hin.
    apply (Permutation_in _ Hperm) in Hin. subst candidates.
    apply in_map_iff in Hin. destruct Hin as [j [<- Hj]].
    apply others_spec in Hj. cbn [fst snd]. tauto.
  - rewrite length_firstn.
    rewrite (Permutation_length Hperm). subst candidates.
    rewrite length_map. lia.
Qed.

(** X10. The nearest neighbours that [uMAP] keeps for the point [i] are
    points of the dataset other than [i], no one twice, each with its
    distance to [i]; whatever [nNeighbors] is. *)
Theorem umap_knn_neighbours :
  forall (distances : list (list float)) (n : nat) (nNeighbors : float)
         (i : nat),
    let knn := umap_knn distances n nNeighbors i in
    NoDup (map fst knn)
    /\ Forall (fun p => (fst p < n)%nat /\ fst p <> i
                        /\ snd p = get2 distances i (fst p)) knn
    /\ (length knn <= length (others n i))%nat.
Proof.
  exact umap_knn_among_others.
Qed.

Lemma key_eqb_eq : forall a b, key_eqb a b = true <-> a = b.
Proof.
  intros [a1 a2] [b1 b2]. unfold key_eqb. cbn [fst snd].
  rewrite andb_true_iff, !Nat.eqb_eq. split.
  - intros [-> ->]. reflexivity.
  - intros H. injection H as -> ->. auto.
Qed.

Lemma graph_set_keys :
  forall g key w,
    (In key (map fst g) /\ map fst (graph_set g key w) = map fst g)
    \/ (~ In key (map fst g)
        /\ map fst (graph_set g key w) = map fst g ++ [key]).
Proof.
  intros g key w. induction g as [|[k w'] g IH]; cbn [graph_set map fst app].
  - right. split; [intros [] | reflexivity].
  - destruct (key_eqb k key) eqn:E.
    + apply key_eqb_eq in E. subst k. left. split; [left|]; reflexivity.
    + assert (Hne : k <> key).
      { intros H. apply key_eqb_eq in H. congruence. }
      cbn [map fst]. destruct IH as [[Hin Heq]|[Hnin Heq]].
      * left. split; [right; exact Hin | f_equal; exact Heq].
      * right. split; [intros [H|H]; auto | f_equal; exact Heq].
Qed.

Lemma graph_set_NoDup :
  forall g key w, NoDup (map fst g) -> NoDup (map fst (graph_set g key w)).
Proof.
  intros g key w H.
  destruct (graph_set_keys g key w) as [[_ ->]|[Hnin ->]]; [exact H|].
  apply NoDup_app; [exact H | repeat constructor; intros [] |].
  intros k Hk [<-|[]]. exact (Hnin Hk).
Qed.

Lemma graph_set_Forall_keys (P : nat * nat -> Prop) :
  forall g key w,
    P key -> Forall P (map fst g) -> Forall P (map fst (graph_set g key w)).
Proof.
  intros g key w Hkey H.
  destruct (graph_set_keys g key w) as [[_ ->]|[_ ->]]; [exact H|].
  apply Forall_app. split; [exact H | repeat constructor; exact Hkey].
Qed.

Lemma fold_left_invariant_in {A B : Type} (P : A -> Prop) (f : A -> B -> A)
    (l : list B) (a : A) :
  P a -> (forall a b, In b l -> P a -> P (f a b)) -> P (fold_left f l a).
Proof.
  revert a. induction l as [|b l IH]; intros a Ha Hstep; cbn; auto.
  apply IH; [apply Hstep; [left; reflexivity | exact Ha]|].
  intros a' b' Hin. apply Hstep. right. exact Hin.
Qed.

Lemma umap_addMembership_keys :
  forall M n sigma i g neighbor,
    (i < n)%nat -> (fst neighbor < n)%nat -> fst neighbor <> i ->
    graphKeysOk n g ->
    graphKeysOk n (umap_addMembership M sigma i g neighbor).
Proof.
  intros M n sigma i g [nj dist] Hi Hnj Hne [Hnd Hkeys]. cbn [fst] in *.
  unfold umap_addMembership. split.
  - apply graph_set_NoDup, Hnd.
  - apply graph_set_Forall_keys; [|exact Hkeys].
    destruct (i <? nj)%nat eqn:E; cbn [fst snd].
    + apply Nat.ltb_lt in E. lia.
    + apply Nat.ltb_ge in E. lia.
Qed.

Lemma umap_graph_keys :
  forall M embeddings options sigmas,
    graphKeysOk (length embeddings)
      (umap_graph M (length embeddings) (umap_knnAll embeddings options)
                  sigmas).
Proof.
  intros M embeddings options sigmas. unfold umap_graph.
  apply fold_left_invariant_in.
  - split; constructor.
  - intros g i Hi Hg. apply in_seq in Hi.
    assert (Hrow : nth i (umap_knnAll embeddings options) []
                   = umap_knn (pairwiseDistances embeddings)
                       (length embeddings)
                       (umap_nNeighbors (length embeddings) options) i).
    { unfold umap_knnAll.
      rewrite nth_indep with (d' := umap_knn (pairwiseDistances embeddings)
                       (length embeddings)
                       (umap_nNeighbors (length embeddings) options) 0%nat)
        by (rewrite length_map, length_seq; lia).
      rewrite map_nth, seq_nth by lia. reflexivity. }
    rewrite Hrow.
    destruct (umap_knn_among_others (pairwiseDistances embeddings)
                (length embeddings)
                (umap_nNeighbors (length embeddings) options) i)
      as (_ & Hall & _).
    apply fold_left_invariant_in; [exact Hg|].
    intros g' neighbor Hin Hg'. rewrite Forall_forall in Hall.
    destruct (Hall neighbor Hin) as (Hlt & Hne & _).
    apply umap_addMembership_keys; auto; lia.
Qed.

Lemma filter_keys_NoDup {A B : Type} (p : A * B -> bool) :
  forall g : list (A * B),
    NoDup (map fst g) -> NoDup (map fst (filter p g)).
Proof.
  induction g as [|e g IH]; intros H; cbn [filter map]; [constructor|].
  inversion H as [|k ks Hnin Hnd]; subst.
  destruct (p e); [|apply IH, Hnd].
  cbn [map]. constructor; [|apply IH, Hnd].
  intros Hin. apply Hnin. apply in_map_iff in Hin.
  destruct Hin as [e' [He' Hin]]. apply filter_In in Hin.
  apply in_map_iff. exists e'. tauto.
Qed.

(** X11. Every edge of UMAP's graph joins two different points of the
    dataset, the smaller index first, no pair of points has two edges, and
    every weight is positive (so it is not NaN). *)
Theorem umap_edges_well_formed :
  forall (M : JS.MathLib) (embeddings : list (list float))
         (options : option UMAPOptions.t),
    let edges := umap_edges M embeddings options in
    Forall (fun e => (source e < target e < length embeddings)%nat
                     /\ (0 <? weight e) = true
                     /\ is_nan (weight e) = false) edges
    /\ NoDup (map (fun e => (source e, target e)) edges).
Proof.
  intros M embeddings options edges. subst edges. unfold umap_edges.
  set (sigmas := map _ _).
  destruct (umap_graph_keys M embeddings options sigmas) as [Hnd Hkeys].
  set (g := umap_graph M _ _ sigmas) in *.
  unfold umap_edgesOf. split.
  - apply Forall_forall. intros e Hin. apply in_map_iff in Hin.
    destruct Hin as [[key w] [<- Hin]]. apply filter_In in Hin.
    destruct Hin as [Hin Hw]. cbn [source target weight fst snd] in *.
    rewrite Forall_forall in Hkeys.
    split; [apply (Hkeys key), in_map_iff; exists (key, w); auto|].
    split; [exact Hw|].
    unfold is_nan. destruct (w =? w) eqn:E; [reflexivity|].
    exfalso. revert Hw E.
    rewrite FloatAxioms.ltb_spec, FloatAxioms.eqb_spec.
    unfold SFltb, SFeqb.
    destruct (Prim2SF w) as [s|s| |s m e]; cbn; try discriminate;
      try (destruct s; discriminate).
    intros _. rewrite Z.compare_refl, Pos.compare_cont_refl.
    destruct s; discriminate.
  - rewrite map_map. cbn [source target].
    replace (map (fun x : nat * nat * float => (fst (fst x), snd (fst x)))
                 (filter (fun e => 0 <? snd e) g))
      with (map fst (filter (fun e : nat * nat * float => 0 <? snd e) g)).
    + apply filter_keys_NoDup, Hnd.
    + apply map_ext. intros [[a b] w]. reflexivity.
Qed.

(** ** t-SNE: when [Math.random()] is consulted *)

Section Lockstep.

Context {S B : Type}.
Variable d : S -> nat.
Variables f1 f2 : S -> B -> S.
Hypothesis grows : forall s b, (d s <= d (f1 s b))%nat.
Hypothesis agree : forall s b, d (f1 s b) = d s -> f2 s b = f1 s b.

Lemma fold_left_grows :
  forall l s, (d s <= d (fold_left f1 l s))%nat.
Proof.
  induction l as [|b l IH]; intros s; cbn [fold_left]; [lia|].
  specialize (IH (f1 s b)). specialize (grows s b). lia.
Qed.

Lemma fold_left_agree :
  forall l s,
    d (fold_left f1 l s) = d s -> fold_left f2 l s = fold_left f1 l s.
Proof.
  induction l as [|b l IH]; intros s Hd; cbn [fold_left] in *;
    [reflexivity|].
  pose proof (fold_left_grows l (f1 s b)) as Hl.
  pose proof (grows s b) as Hb.
  rewrite agree by lia. apply IH. lia.
Qed.

End Lockstep.

Lemma tsne_updatePoint_draws :
  forall random gradient currentMomentum eta st i,
    let st' := tsne_updatePoint random gradient currentMomentum eta st i in
    ts_draws st' = ts_draws st \/ ts_draws st' = S (S (ts_draws st)).
Proof.
  intros. subst st'. unfold tsne_updatePoint. cbn [ts_draws].
  destruct (_ || _); auto.
Qed.

Lemma tsne_updatePoint_agree :
  forall random1 random2 gradient currentMomentum eta st i,
    ts_draws (tsne_updatePoint random1 gradient currentMomentum eta st i)
    = ts_draws st ->
    tsne_updatePoint random2 gradient currentMomentum eta st i
    = tsne_updatePoint random1 gradient currentMomentum eta st i.
Proof.
  intros random1 random2 gradient currentMomentum eta st i.
  unfold tsne_updatePoint. cbn [ts_draws].
  destruct (_ || _); [lia | reflexivity].
Qed.

Lemma tsne_iteration_grows :
  forall random P n options st iter,
    (ts_draws st <= ts_draws (tsne_iteration random P n options st iter))%nat.
Proof.
  intros. unfold tsne_iteration. cbn [ts_draws].
  apply (fold_left_grows ts_draws). intros s b.
  match goal with
  | |- (_ <= ts_draws (tsne_updatePoint ?r ?g ?c ?e s b))%nat =>
      destruct (tsne_updatePoint_draws r g c e s b) as [H|H]
  end; cbv zeta in H; rewrite H; lia.
Qed.

Lemma tsne_iteration_agree :
  forall random1 random2 P n options st iter,
    ts_draws (tsne_iteration random1 P n options st iter) = ts_draws st ->
    tsne_iteration random2 P n options st iter
    = tsne_iteration random1 P n options st iter.
Proof.
  intros random1 random2 P n options st iter. unfold tsne_iteration.
  cbn [ts_draws]. intros Hd.
  match type of Hd with
  | ts_draws (fold_left (tsne_updatePoint random1 ?g ?c ?e) _ _) = _ =>
      rewrite (fold_left_agree ts_draws
                 (tsne_updatePoint random1 g c e)
                 (tsne_updatePoint random2 g c e));
        [reflexivity | | | exact Hd]
  end.
  - intros s b.
    match goal with
    | |- (_ <= ts_draws (tsne_updatePoint ?r ?g ?c ?e s b))%nat =>
        destruct (tsne_updatePoint_draws r g c e s b) as [H|H]
    end; cbv zeta in H; rewrite H; lia.
  - intros s b. apply tsne_updatePoint_agree.
Qed.

(** X12. A run of [tSNE] in which no point is ever reset consults
    [Math.random()] at no time: its result is the one of every other run on
    the same input and options. *)
Theorem tsne_reproducible_without_reset :
  forall (M : JS.MathLib) (random1 random2 : nat -> float)
         (embeddings : list (list float)) (documents : list Document.t)
         (options : option TSNEOptions.t),
    ts_draws (tsne_layout M random1 embeddings options) = 0%nat ->
    tsne_layout M random2 embeddings options
    = tsne_layout M random1 embeddings options
    /\ tSNE M random2 embeddings documents options
       = tSNE M random1 embeddings documents options.
Proof.
  intros M random1 random2 embeddings documents options Hd.
  assert (Hlayout : tsne_layout M random2 embeddings options
                    = tsne_layout M random1 embeddings options).
  { unfold tsne_layout in *.
    apply (fold_left_agree ts_draws); [ | | exact Hd].
    - intros s b. apply tsne_iteration_grows.
    - intros s b. apply tsne_iteration_agree. }
  split; [exact Hlayout|].
  destruct embeddings as [|v [|v' rest]]; try reflexivity.
  unfold tSNE. rewrite Hlayout. reflexivity.
Qed.

Lemma tsne_reproducible_witness :
  tSNE RefMath.lib randomB threeVectors [] tenIterations
  = tSNE RefMath.lib randomA threeVectors [] tenIterations.
Proof.
  apply (tsne_reproducible_without_reset RefMath.lib randomA randomB
           threeVectors [] tenIterations).
  vm_compute. reflexivity.
Defined.

Lemma fold_left_bounded {S B : Type} (d : S -> nat) (f : S -> B -> S)
    (c : nat) :
  (forall s b, d (f s b) <= d s + c)%nat ->
  forall l s, (d (fold_left f l s) <= d s + c * length l)%nat.
Proof.
  intros Hstep. induction l as [|b l IH]; intros s; cbn [fold_left length];
    [lia|].
  specialize (IH (f s b)). specialize (Hstep s b). nia.
Qed.

(** X13. [tSNE] takes its values of [Math.random()] two at a time, and at
    most two per point and iteration. *)
Theorem tsne_draws_bounded :
  forall (M : JS.MathLib) (Math_random : nat -> float)
         (embeddings : list (list float)) (options : option TSNEOptions.t),
    let n := length embeddings in
    let draws := ts_draws (tsne_layout M Math_random embeddings options) in
    Nat.Even draws
    /\ (draws <= 2 * n * tsne_iterations n options)%nat.
Proof.
  intros M rnd embeddings options n draws. subst draws.
  assert (Hpoint : forall g c e s b,
             ts_draws (tsne_updatePoint rnd g c e s b) = ts_draws s
             \/ ts_draws (tsne_updatePoint rnd g c e s b)
                = S (S (ts_draws s))).
  { intros. apply tsne_updatePoint_draws. }
  split.
  - unfold tsne_layout.
    apply fold_left_invariant with (P := fun st => Nat.Even (ts_draws st)).
    + exists 0%nat. reflexivity.
    + intros st iter Hst. unfold tsne_iteration. cbn [ts_draws].
      apply fold_left_invariant
        with (P := fun st' => Nat.Even (ts_draws st')); [exact Hst|].
      intros s b [k Hk].
      match goal with
      | |- Nat.Even (ts_draws (tsne_updatePoint rnd ?g ?c ?e s b)) =>
          destruct (Hpoint g c e s b) as [H|H]
      end; rewrite H; [exists k; lia | exists (S k); lia].
  - unfold tsne_layout.
    match goal with
    | |- (ts_draws (fold_left ?f ?l ?s) <= _)%nat =>
        pose proof (fold_left_bounded ts_draws f (2 * n)) as Hb
    end.
    match type of Hb with
    | ?A -> _ => assert (Hstep : A)
    end.
    { intros s iter. unfold tsne_iteration. cbn [ts_draws].
      match goal with
      | |- (ts_draws (fold_left ?f ?l s) <= _)%nat =>
          pose proof (fold_left_bounded ts_draws f 2) as Hp
      end.
      match type of Hp with
      | ?A -> _ => assert (Hupd : A)
      end.
      { intros s' b.
        match goal with
        | |- (ts_draws (tsne_updatePoint rnd ?g ?c ?e s' b) <= _)%nat =>
            destruct (Hpoint g c e s' b) as [H|H]
        end; rewrite H; lia. }
      specialize (Hp Hupd (seq 0 (length embeddings)) s).
      rewrite length_seq in Hp. subst n. lia. }
    specialize (Hb Hstep (seq 0 (tsne_iterations (length embeddings) options))
                   {| ts_Y := fst (initLayout (length embeddings)
                                     {| seed := generateSeed embeddings |});
                      ts_gains := repeat (1.0, 1.0) (length embeddings);
                      ts_YStep := repeat (0, 0) (length embeddings);
                      ts_draws := 0 |}).
    rewrite length_seq in Hb. cbn [ts_draws] in Hb. subst n. lia.
Qed.

(** ** The distance matrix and the joint probabilities are symmetric *)

Lemma table_row {A : Type} (f : nat -> A) (n i : nat) (d : A) :
  nth i (map f (seq 0 n)) d = if (i <? n)%nat then f i else d.
Proof.
  destruct (i <? n)%nat eqn:E.
  - apply Nat.ltb_lt in E.
    rewrite nth_indep with (d' := f 0%nat)
      by (rewrite length_map, length_seq; exact E).
    rewrite map_nth, seq_nth by exact E. reflexivity.
  - apply Nat.ltb_ge in E. apply nth_overflow.
    rewrite length_map, length_seq. exact E.
Qed.

Lemma table_get2 (f : nat -> nat -> float) (n i j : nat) :
  get2 (map (fun i => map (f i) (seq 0 n)) (seq 0 n)) i j
  = if ((i <? n) && (j <? n))%nat then f i j else nan.
Proof.
  unfold get2, get, row. rewrite table_row.
  destruct (i <? n)%nat; cbn [andb].
  - apply table_row.
  - destruct j; reflexivity.
Qed.

Lemma table_symmetric (f : nat -> nat -> float) (n : nat) :
  (forall i j, f i j = f j i) ->
  forall i j,
    get2 (map (fun i => map (f i) (seq 0 n)) (seq 0 n)) i j
    = get2 (map (fun i => map (f i) (seq 0 n)) (seq 0 n)) j i.
Proof.
  intros Hf i j. rewrite !table_get2, (Hf i j), andb_comm. reflexivity.
Qed.

Lemma table_shape {A : Type} (f : nat -> nat -> A) (n : nat) :
  length (map (fun i => map (f i) (seq 0 n)) (seq 0 n)) = n
  /\ Forall (fun r => length r = n)
            (map (fun i => map (f i) (seq 0 n)) (seq 0 n)).
Proof.
  split; [rewrite length_map, length_seq; reflexivity|].
  apply Forall_forall. intros r Hin. apply in_map_iff in Hin.
  destruct Hin as [i [<- _]]. rewrite length_map, length_seq. reflexivity.
Qed.

(** X14. The distance matrix that [tSNE] and [uMAP] build is an [n] by [n]
    table, equal to its transpose bit for bit, with zeros on the diagonal. *)
Theorem pairwiseDistances_symmetric :
  forall embeddings : list (list float),
    let n := length embeddings in
    let distances := pairwiseDistances embeddings in
    length distances = n
    /\ Forall (fun r => length r = n) distances
    /\ (forall i j, get2 distances i j = get2 distances j i)
    /\ (forall i, (i < n)%nat -> get2 distances i i = 0).
Proof.
  intros embeddings n distances. subst distances n.
  unfold pairwiseDistances.
  split; [apply table_shape|]. split; [apply table_shape|]. split.
  - apply (table_symmetric (fun i j =>
             if (i =? j)%nat then 0
             else if (i <? j)%nat
                  then euclid _ (row embeddings i) (row embeddings j)
                  else euclid _ (row embeddings j) (row embeddings i))).
    intros i j. rewrite (Nat.eqb_sym j i).
    destruct (i =? j)%nat eqn:E; [reflexivity|].
    apply Nat.eqb_neq in E.
    destruct (i <? j)%nat eqn:E1; destruct (j <? i)%nat eqn:E2;
      try reflexivity.
    + apply Nat.ltb_lt in E1, E2. lia.
    + apply Nat.ltb_ge in E1, E2. lia.
  - intros i Hi.
    rewrite (table_get2 (fun i j =>
             if (i =? j)%nat then 0
             else if (i <? j)%nat
                  then euclid _ (row embeddings i) (row embeddings j)
                  else euclid _ (row embeddings j) (row embeddings i))).
    apply Nat.ltb_lt in Hi. rewrite Hi, Nat.eqb_refl. reflexivity.
Qed.

(** X15. The joint probabilities [P] of [tSNE] form an [n] by [n] table,
    equal to its transpose bit for bit, with zeros on the diagonal, whatever
    the conditional probabilities are (NaN included). *)
Theorem tsne_P_symmetric :
  forall (M : JS.MathLib) (embeddings : list (list float))
         (options : option TSNEOptions.t),
    let n := length embeddings in
    let P := tsne_P M embeddings options in
    length P = n
    /\ Forall (fun r => length r = n) P
    /\ (forall i j, get2 P i j = get2 P j i)
    /\ (forall i, (i < n)%nat -> get2 P i i = 0).
Proof.
  intros M embeddings options n P. subst P n. unfold tsne_P.
  split; [apply table_shape|]. split; [apply table_shape|]. split.
  - apply (table_symmetric (fun i j =>
             if (i =? j)%nat then 0
             else (get2 _ (Nat.min i j) (Nat.max i j)
                   + get2 _ (Nat.max i j) (Nat.min i j)) / _)).
    intros i j.
    rewrite (Nat.eqb_sym j i), (Nat.min_comm j i), (Nat.max_comm j i).
    reflexivity.
  - intros i Hi.
    rewrite (table_get2 (fun i j =>
             if (i =? j)%nat then 0
             else (get2 _ (Nat.min i j) (Nat.max i j)
                   + get2 _ (Nat.max i j) (Nat.min i j)) / _)).
    apply Nat.ltb_lt in Hi. rewrite Hi, Nat.eqb_refl. reflexivity.
Qed.

(** ** The order of binary64 numbers, from their specification *)

Lemma SFcompare_antisym :
  forall x y, SFcompare y x = option_map CompOpp (SFcompare x y).
Proof.
  intros [sx|sx| |sx mx ex] [sy|sy| |sy my ey]; cbn;
    try reflexivity;
    try (destruct sx; reflexivity); try (destruct sy; reflexivity);
    try (destruct sx, sy; reflexivity).
  destruct sx, sy; cbn; try reflexivity;
    rewrite (Z.compare_antisym ex ey);
    destruct (ex ?= ey)%Z; cbn; try reflexivity;
    rewrite ?(Pos.compare_cont_antisym mx my Eq); reflexivity.
Qed.

Lemma SFcompare_refl :
  forall x, x <> S754_nan -> SFcompare x x = Some Eq.
Proof.
  intros [s|s| |s m e] H; cbn; try congruence;
    try (destruct s; reflexivity).
  rewrite Z.compare_refl, Pos.compare_cont_refl.
  destruct s; reflexivity.
Qed.

Lemma is_nan_spec :
  forall a, is_nan a = true <-> Prim2SF a = S754_nan.
Proof.
  intros a. unfold is_nan. rewrite FloatAxioms.eqb_spec. unfold SFeqb.
  destruct (Prim2SF a) as [s|s| |s m e] eqn:E.
  - cbn. split; discriminate.
  - cbn. destruct s; split; discriminate.
  - cbn. split; reflexivity.
  - rewrite SFcompare_refl by discriminate. cbn. split; discriminate.
Qed.

Lemma cmp_some :
  forall a b, is_nan a = false -> is_nan b = false ->
              exists c, cmp a b = Some c.
Proof.
  intros a b Ha Hb. unfold cmp.
  assert (Ha' : Prim2SF a <> S754_nan)
    by (intros H; apply is_nan_spec in H; congruence).
  assert (Hb' : Prim2SF b <> S754_nan)
    by (intros H; apply is_nan_spec in H; congruence).
  destruct (Prim2SF a) as [sa|sa| |sa ma ea];
    destruct (Prim2SF b) as [sb|sb| |sb mb eb];
    try congruence; cbn; eauto.
Qed.

Lemma ltb_cmp : forall a b, (a <? b) = true <-> cmp a b = Some Lt.
Proof.
  intros a b. rewrite FloatAxioms.ltb_spec. unfold SFltb, cmp.
  destruct (SFcompare _ _) as [[| |]|]; split; congruence.
Qed.

Lemma leb_cmp :
  forall a b, (a <=? b) = true <-> (cmp a b = Some Lt \/ cmp a b = Some Eq).
Proof.
  intros a b. rewrite FloatAxioms.leb_spec. unfold SFleb, cmp.
  destruct (SFcompare _ _) as [[| |]|]; split;
    try congruence; auto; intros [H|H]; congruence.
Qed.

Lemma cmp_antisym : forall a b, cmp b a = option_map CompOpp (cmp a b).
Proof. intros a b. apply SFcompare_antisym. Qed.

Lemma leb_refl : forall a, is_nan a = false -> (a <=? a) = true.
Proof.
  intros a Ha. apply leb_cmp. right. unfold cmp. apply SFcompare_refl.
  intros H. apply is_nan_spec in H. congruence.
Qed.

Lemma ltb_leb : forall a b, (a <? b) = true -> (a <=? b) = true.
Proof. intros a b H. apply leb_cmp. left. apply ltb_cmp, H. Qed.

(** Two numbers, none of them NaN and none below the other, compare equal. *)
Lemma not_ltb_leb :
  forall a b, is_nan a = false -> is_nan b = false ->
              (b <? a) = false -> (a <=? b) = true.
Proof.
  intros a b Ha Hb Hlt. apply leb_cmp.
  destruct (cmp_some a b Ha Hb) as [c Hc].
  destruct c; auto. exfalso.
  assert (H : cmp b a = Some Lt) by (rewrite cmp_antisym, Hc; reflexivity).
  apply ltb_cmp in H. congruence.
Qed.

Lemma is_nan_opp : forall a, is_nan (- a) = is_nan a.
Proof.
  intros a. destruct (is_nan a) eqn:Ha.
  - apply is_nan_spec. apply is_nan_spec in Ha.
    rewrite FloatAxioms.opp_spec, Ha. reflexivity.
  - destruct (is_nan (- a)) eqn:Hn; [|reflexivity].
    apply is_nan_spec in Hn. rewrite FloatAxioms.opp_spec in Hn.
    assert (Prim2SF a = S754_nan)
      by (destruct (Prim2SF a); cbn in Hn; congruence).
    apply is_nan_spec in H. congruence.
Qed.

Lemma opp_leb_self :
  forall b, (0 <=? b) = true -> (- b <=? b) = true.
Proof.
  intros b Hb. apply leb_cmp in Hb. apply leb_cmp. unfold cmp in *.
  rewrite FloatAxioms.opp_spec.
  change (Prim2SF 0) with (S754_zero false) in Hb.
  destruct (Prim2SF b) as [s|s| |s m e]; cbn in *.
  - right. reflexivity.
  - destruct s; cbn; [destruct Hb; discriminate | left; reflexivity].
  - destruct Hb; discriminate.
  - destruct s; cbn; [destruct Hb; discriminate | left; reflexivity].
Qed.

Lemma Math_min_spec :
  forall a b, is_nan a = false -> is_nan b = false ->
    (JS.Math.min a b = a \/ JS.Math.min a b = b)
    /\ (JS.Math.min a b <=? a) = true /\ (JS.Math.min a b <=? b) = true.
Proof.
  intros a b Ha Hb. unfold JS.Math.min. rewrite Ha, Hb. cbn [orb].
  destruct (a <? b) eqn:Hab.
  - split; [auto|]. split; [apply leb_refl, Ha | apply ltb_leb, Hab].
  - destruct (b <? a) eqn:Hba.
    + split; [auto|]. split; [apply ltb_leb, Hba | apply leb_refl, Hb].
    + destruct (get_sign a).
      * split; [auto|].
        split; [apply leb_refl, Ha | apply not_ltb_leb; auto].
      * split; [auto|].
        split; [apply not_ltb_leb; auto | apply leb_refl, Hb].
Qed.

Lemma Math_max_spec :
  forall a b, is_nan a = false -> is_nan b = false ->
    (JS.Math.max a b = a \/ JS.Math.max a b = b)
    /\ (a <=? JS.Math.max a b) = true /\ (b <=? JS.Math.max a b) = true.
Proof.
  intros a b Ha Hb. unfold JS.Math.max. rewrite Ha, Hb. cbn [orb].
  destruct (b <? a) eqn:Hba.
  - split; [auto|]. split; [apply leb_refl, Ha | apply ltb_leb, Hba].
  - destruct (a <? b) eqn:Hab.
    + split; [auto|]. split; [apply ltb_leb, Hab | apply leb_refl, Hb].
    + destruct (get_sign a).
      * split; [auto|].
        split; [apply not_ltb_leb; auto | apply leb_refl, Hb].
      * split; [auto|].
        split; [apply leb_refl, Ha | apply not_ltb_leb; auto].
Qed.

(** [Math.max(-bound, Math.min(bound, v))] is NaN for a NaN [v] and lies
    in [[-bound, bound]] otherwise. *)
Lemma clamp_spec :
  forall bound v,
    (0 <=? bound) = true ->
    (is_nan v = true -> is_nan (clamp bound v) = true)
    /\ (is_nan v = false ->
        is_nan (clamp bound v) = false /\ within bound (clamp bound v) = true).
Proof.
  intros bound v Hbound.
  assert (Hb : is_nan bound = false).
  { destruct (is_nan bound) eqn:E; [|reflexivity].
    apply is_nan_spec in E. apply leb_cmp in Hbound. unfold cmp in Hbound.
    rewrite E in Hbound. cbn in Hbound. destruct Hbound; discriminate. }
  unfold clamp. split.
  - intros Hv. unfold JS.Math.min. rewrite Hv, orb_true_r.
    unfold JS.Math.max. change (is_nan nan) with true.
    rewrite orb_true_r. reflexivity.
  - intros Hv.
    destruct (Math_min_spec bound v Hb Hv) as (Hmin & Hle1 & _).
    assert (Hm : is_nan (JS.Math.min bound v) = false)
      by (destruct Hmin as [-> | ->]; assumption).
    assert (Ho : is_nan (- bound) = false) by (rewrite is_nan_opp; exact Hb).
    destruct (Math_max_spec (- bound) (JS.Math.min bound v) Ho Hm)
      as (Hmax & Hge & _).
    split; [destruct Hmax as [-> | ->]; assumption|].
    unfold within. rewrite Hge. cbn [andb].
    destruct Hmax as [-> | ->]; [apply opp_leb_self, Hbound | exact Hle1].
Qed.

Lemma nth_setAt {A : Type} :
  forall (l : list A) i v d, (i < length l)%nat -> nth i (setAt l i v) d = v.
Proof.
  induction l as [|h t IH]; intros [|i] v d Hi; cbn in *; try lia;
    [reflexivity|].
  apply IH. lia.
Qed.

Lemma clamp_nan_or_within :
  forall bound v,
    (0 <=? bound) = true ->
    is_nan (clamp bound v) = true \/ within bound (clamp bound v) = true.
Proof.
  intros bound v Hb. destruct (clamp_spec bound v Hb) as [Hnan Hok].
  destruct (is_nan v); [left; auto | right; apply Hok; reflexivity].
Qed.

(** X16. The update of a point in [tSNE] keeps its safeguards: each
    component of the new step is NaN or within [-50, 50]; and the new
    position is either within [-1000, 1000] in both components, with no
    value of [Math.random()] taken, or it is the reset position made of the
    next two values of [Math.random()]. *)
Theorem tsne_updatePoint_bounds :
  forall (Math_random : nat -> float) (gradient : list (float * float))
         (currentMomentum eta : float) (st : TsneState) (i : nat),
    (i < length (ts_Y st))%nat -> (i < length (ts_YStep st))%nat ->
    let st' := tsne_updatePoint Math_random gradient currentMomentum eta
                                st i in
    let step := pt (ts_YStep st') i in
    let y := pt (ts_Y st') i in
    (is_nan (fst step) = true \/ within 50 (fst step) = true)
    /\ (is_nan (snd step) = true \/ within 50 (snd step) = true)
    /\ ((ts_draws st' = ts_draws st
         /\ within 1000 (fst y) = true /\ within 1000 (snd y) = true)
        \/ (ts_draws st' = S (S (ts_draws st))
            /\ y = ((Math_random (ts_draws st) - 0.5) * 0.01,
                    (Math_random (S (ts_draws st)) - 0.5) * 0.01))).
Proof.
  intros rnd gradient cm eta st i HY HS st' step y.
  subst step y st'. unfold tsne_updatePoint, pt.
  cbn [ts_Y ts_YStep ts_draws].
  rewrite !nth_setAt by assumption. cbn [fst snd].
  split; [apply clamp_nan_or_within; reflexivity|].
  split; [apply clamp_nan_or_within; reflexivity|].
  match goal with
  | |- context [if ?c then _ else _] => destruct c eqn:Hreset
  end.
  - right. split; reflexivity.
  - left. split; [reflexivity|].
    apply orb_false_iff in Hreset. destruct Hreset as [Hreset Hn1].
    apply orb_false_iff in Hreset. destruct Hreset as [_ Hn0].
    unfold JS.isNaN in *.
    split; apply clamp_spec; try reflexivity; assumption.
Qed.

Lemma tsne_updatePoint_bounds_witness :
  let st' := tsne_updatePoint randomA [(1, nan)] 0.5 500 onePointState 0 in
  ts_draws st' = 2%nat
  /\ pt (ts_Y st') 0 = ((randomA 0 - 0.5) * 0.01, (randomA 1 - 0.5) * 0.01).
Proof.
  destruct (tsne_updatePoint_bounds randomA [(1, nan)] 0.5 500
              onePointState 0) as (_ & _ & [[H _]|H]).
  - cbn. lia.
  - cbn. lia.
  - vm_compute in H. discriminate H.
  - exact H.
Defined.

(** ** Non-finite coordinates: what [tSNE] resets and [uMAP] does not (C8) *)












Section NoResetInUMAP.

Variable M : JS.MathLib.
Variables i d : nat.






End NoResetInUMAP.


(** ** Reading a JSONL stream chunk by chunk *)

Section IngestFacts.
Import Ingest IngestSpec.

Lemma split_not_nil : forall s, split s <> [].
Proof.
  intros [|c t]; cbn [split]; [discriminate|].
  destruct (c =? 10)%N; [discriminate|].
  destruct (split t); discriminate.
Qed.

Lemma split_app :
  forall a b,
    split (a ++ b)
    = removelast (split a) ++ split (last (split a) [] ++ b).
Proof.
  induction a as [|c t IH]; intros b; [reflexivity|].
  cbn [app split]. rewrite IH.
  pose proof (split_not_nil t) as Ht.
  destruct (c =? 10)%N eqn:Ec.
  - destruct (split t) as [|x r] eqn:E; [congruence|]. reflexivity.
  - destruct (split t) as [|x [|y r]] eqn:E; [congruence| |].
    + cbn [removelast last app split]. rewrite Ec. reflexivity.
    + reflexivity.
Qed.

Lemma last_split_noNewline : forall s, noNewline (last (split s) []).
Proof.
  induction s as [|c t IH]; cbn [split]; [constructor|].
  pose proof (split_not_nil t) as Ht.
  destruct (c =? 10)%N eqn:Ec.
  - destruct (split t) as [|x r]; [congruence | exact IH].
  - destruct (split t) as [|x [|y r]]; [congruence| |exact IH].
    cbn [last] in *. constructor; [|exact IH].
    apply N.eqb_neq. exact Ec.
Qed.

Lemma split_noNewline : forall s, noNewline s -> split s = [s].
Proof.
  induction 1 as [|c t Hc _ IH]; [reflexivity|].
  cbn [split]. apply N.eqb_neq in Hc. rewrite Hc, IH. reflexivity.
Qed.

Lemma trimStart_suffix : forall s, exists p, s = p ++ trimStart s.
Proof.
  induction s as [|c t [p IH]]; [exists []; reflexivity|].
  cbn [trimStart]. destruct (isWhiteSpace c).
  - exists (c :: p). cbn. f_equal. exact IH.
  - exists []. reflexivity.
Qed.

Lemma trimStart_startsClean : forall s, startsClean (trimStart s).
Proof.
  induction s as [|c t IH]; [exact I|].
  cbn [trimStart]. destruct (isWhiteSpace c) eqn:E; [exact IH | exact E].
Qed.

Lemma trimStart_clean : forall s, startsClean s -> trimStart s = s.
Proof.
  intros [|c t] H; [reflexivity|]. cbn in *. rewrite H. reflexivity.
Qed.

Lemma rev_trimStart_rev_clean :
  forall u, startsClean u -> startsClean (rev (trimStart (rev u))).
Proof.
  intros u Hu. destruct (trimStart_suffix (rev u)) as [p Hp].
  destruct (trimStart (rev u)) as [|c v] eqn:E; [exact I|].
  assert (Hu' : u = rev (c :: v) ++ rev p).
  { rewrite <- rev_app_distr, <- Hp, rev_involutive. reflexivity. }
  destruct (rev (c :: v)) as [|x r] eqn:Er.
  - apply (f_equal (@length N)) in Er.
    rewrite length_rev in Er. discriminate.
  - rewrite Hu' in Hu. exact Hu.
Qed.

Lemma trim_idempotent : forall s, trim (trim s) = trim s.
Proof.
  intros s. unfold trim.
  set (u := trimStart s). set (v := trimStart (rev u)).
  assert (Hclean : startsClean (rev v))
    by (apply rev_trimStart_rev_clean, trimStart_startsClean).
  rewrite (trimStart_clean (rev v) Hclean), rev_involutive.
  rewrite (trimStart_clean v) by apply trimStart_startsClean.
  reflexivity.
Qed.

Lemma trimStart_noNewline : forall s, noNewline s -> noNewline (trimStart s).
Proof.
  intros s H. destruct (trimStart_suffix s) as [p Hp].
  unfold noNewline in *. rewrite Hp in H. apply Forall_app in H. tauto.
Qed.

Lemma trim_noNewline : forall s, noNewline s -> noNewline (trim s).
Proof.
  intros s H. unfold trim, noNewline.
  apply Forall_rev, trimStart_noNewline, Forall_rev, trimStart_noNewline, H.
Qed.

Section ReaderFacts.

Variable JSON_parse : jsstring -> Json + jsstring.
Variable nullReadMessage : jsstring.

Local Abbreviation ingestLine := (ingestLine JSON_parse nullReadMessage).
Local Abbreviation completeLine := (completeLine JSON_parse nullReadMessage).
Local Abbreviation remainingLine := (remainingLine JSON_parse nullReadMessage).
Local Abbreviation processText := (processText JSON_parse nullReadMessage).
Local Abbreviation readChunk := (readChunk JSON_parse nullReadMessage).
Local Abbreviation load := (load JSON_parse nullReadMessage).

Lemma forEach_app {A : Type} (body : A -> Collected -> jsstring + Collected) :
  forall l1 l2 c,
    forEach body (l1 ++ l2) c
    = match forEach body l1 c with
      | inl message => inl message
      | inr c' => forEach body l2 c'
      end.
Proof.
  induction l1 as [|a l1 IH]; intros l2 c; cbn [app forEach];
    [reflexivity|].
  destruct (body a c); [reflexivity | apply IH].
Qed.

Lemma readChunk_all_lines :
  forall chunks c buffer,
    noNewline buffer ->
    readChunk chunks c buffer
    = outcomeOf (forEach completeLine (split (buffer ++ concat chunks)) c).
Proof.
  induction chunks as [|chunk rest IH]; intros c buffer Hbuf.
  - cbn [concat readChunk]. rewrite app_nil_r.
    rewrite (split_noNewline buffer Hbuf). cbn [forEach].
    unfold Ingest.completeLine.
    destruct (isEmptyString (trim buffer)) eqn:E; cbn [negb].
    + reflexivity.
    + rewrite (split_noNewline (trim buffer))
        by (apply trim_noNewline, Hbuf).
      cbn [forEach]. unfold Ingest.remainingLine.
      rewrite trim_idempotent, E. reflexivity.
  - cbn [concat readChunk]. rewrite app_assoc, split_app, forEach_app.
    unfold Ingest.processText.
    destruct (forEach completeLine (removelast (split (buffer ++ chunk))) c)
      as [message|c']; [reflexivity|].
    apply IH, last_split_noNewline.
Qed.

(** X17. Reading a JSONL stream does not depend on how the stream is cut
    into chunks: every cutting of a text gives the outcome of the text read
    as one chunk, the same data or the same error message. *)
Theorem load_chunking_invariant :
  forall chunks : list jsstring, load chunks = load [concat chunks].
Proof.
  intros chunks. unfold Ingest.load.
  rewrite !readChunk_all_lines by constructor.
  cbn [concat]. rewrite app_nil_r. reflexivity.
Qed.

Lemma ingestLine_record :
  forall segment c c',
    ingestLine (trim segment) c = inr c' ->
    exists e d,
      embeddings c' = embeddings c ++ [e]
      /\ documents c' = documents c ++ [d]
      /\ recordOn JSON_parse segment e d.
Proof.
  intros segment c c'. unfold Ingest.ingestLine.
  destruct (JSON_parse (trim segment)) as [parsed|] eqn:Eparse;
    [|discriminate].
  destruct parsed as [| | | | |members]; try discriminate.
  destruct (getProp (JObject members) (lit "embedding"))
    as [[| | | |e|]|] eqn:Ee;
    cbn [truthy negb orb]; rewrite ?orb_true_r; try discriminate.
  destruct (getProp (JObject members) (lit "text"))
    as [[| | |text| |]|] eqn:Etext; try discriminate.
  destruct (getProp (JObject members) (lit "title"))
    as [[| | |title| |]|] eqn:Etitle; try discriminate.
  intros H. injection H as <-. cbn [embeddings documents].
  exists e, (title, text). split; [reflexivity|]. split; [reflexivity|].
  exists members. cbn [fst snd]. auto.
Qed.

Lemma record_ingestLine :
  forall segment c e d,
    recordOn JSON_parse segment e d ->
    exists c', ingestLine (trim segment) c = inr c'.
Proof.
  intros segment c e d (members & Hparse & He & Htitle & Htext).
  unfold Ingest.ingestLine. rewrite Hparse, He, Htext, Htitle.
  cbn [truthy negb orb]. eexists. reflexivity.
Qed.

Lemma forEach_completeLine_records :
  forall segments c c',
    forEach completeLine segments c = inr c' ->
    exists es ds,
      embeddings c' = embeddings c ++ es
      /\ documents c' = documents c ++ ds
      /\ length ds = length es
      /\ Forall2 (fun segment r => recordOn JSON_parse segment (fst r) (snd r))
           (filter (fun segment => negb (isEmptyString (trim segment)))
                   segments)
           (combine es ds).
Proof.
  induction segments as [|segment rest IH]; intros c c' H; cbn in H.
  - injection H as <-. exists [], []. rewrite !app_nil_r.
    repeat split; constructor.
  - unfold Ingest.completeLine in H. cbn [filter].
    destruct (isEmptyString (trim segment)) eqn:E; cbn [negb].
    + apply IH, H.
    + destruct (ingestLine (trim segment) c) as [|c1] eqn:E1;
        [discriminate|].
      apply ingestLine_record in E1.
      destruct E1 as (e & d & He & Hd & Hrec).
      apply IH in H. destruct H as (es & ds & Hes & Hds & Hlen & Hall).
      exists (e :: es), (d :: ds).
      rewrite Hes, Hds, He, Hd, <- !app_assoc. cbn [app length combine].
      repeat split; [congruence|]. constructor; assumption.
Qed.

(** X18. A load that succeeds has collected the records of the lines of
    the stream that are not blank, in their order: the i-th vector and the
    i-th document are the [embedding], [title] and [text] of the i-th such
    line, and there are as many documents as vectors, whatever the chunks
    are. *)
Theorem load_records_in_line_order :
  forall (chunks : list jsstring) (es : list (list Json))
         (ds : list (jsstring * jsstring)),
    load chunks = Loaded es ds ->
    Forall2 (fun segment r => recordOn JSON_parse segment (fst r) (snd r))
            (nonBlankLines (concat chunks)) (combine es ds)
    /\ length ds = length es.
Proof.
  intros chunks es ds. unfold Ingest.load.
  rewrite readChunk_all_lines by constructor. cbn [app].
  destruct (forEach completeLine (split (concat chunks)) nothing)
    as [|c'] eqn:E; [discriminate|].
  cbn [outcomeOf]. intros H. injection H as <- <-.
  apply forEach_completeLine_records in E.
  destruct E as (es & ds & -> & -> & Hlen & Hall). cbn [nothing app].
  cbn [embeddings documents app]. split; assumption.
Qed.

Lemma forEach_completeLine_succeeds :
  forall segments c,
    Forall (fun segment => exists e d, recordOn JSON_parse segment e d)
           (filter (fun segment => negb (isEmptyString (trim segment)))
                   segments) ->
    exists c', forEach completeLine segments c = inr c'.
Proof.
  induction segments as [|segment rest IH]; intros c H; cbn [forEach].
  - eexists. reflexivity.
  - unfold Ingest.completeLine. cbn [filter] in H.
    destruct (isEmptyString (trim segment)) eqn:E; cbn [negb] in H.
    + apply IH, H.
    + inversion H as [|? ? (e & d & Hrec) Hrest]; subst.
      destruct (record_ingestLine segment c e d Hrec) as [c1 ->].
      apply IH, Hrest.
Qed.

(** X19. A stream in which every line that is not blank holds a record is
    loaded: the reader fails on no such stream, however it is cut into
    chunks and whatever blank lines it has. *)
Theorem load_succeeds_on_records :
  forall chunks : list jsstring,
    Forall (fun segment => exists e d, recordOn JSON_parse segment e d)
           (nonBlankLines (concat chunks)) ->
    exists es ds, load chunks = Loaded es ds.
Proof.
  intros chunks H. unfold Ingest.load.
  rewrite readChunk_all_lines by constructor. cbn [app].
  destruct (forEach_completeLine_succeeds (split (concat chunks)) nothing H)
    as [c' ->].
  cbn [outcomeOf]. eauto.
Qed.

End ReaderFacts.

End IngestFacts.

Lemma load_records_witness :
  Forall2 (fun segment r =>
             IngestSpec.recordOn IngestSpec.echoParse segment (fst r) (snd r))
          (IngestSpec.nonBlankLines
             (concat [Ingest.lit "a"; [10%N; 10%N; 32%N]; Ingest.lit "b"]))
          (combine [[Ingest.JNumber 1]; [Ingest.JNumber 1]]
                   [(Ingest.lit "a", Ingest.lit "a");
                    (Ingest.lit "b", Ingest.lit "b")])
  /\ length [(Ingest.lit "a", Ingest.lit "a");
             (Ingest.lit "b", Ingest.lit "b")]
     = length [[Ingest.JNumber 1]; [Ingest.JNumber 1]].
Proof.
  apply (load_records_in_line_order IngestSpec.echoParse []
           [Ingest.lit "a"; [10%N; 10%N; 32%N]; Ingest.lit "b"]).
  reflexivity.
Defined.

Lemma load_succeeds_witness :
  exists es ds,
    Ingest.load IngestSpec.echoParse []
      [Ingest.lit "a"; [10%N; 10%N; 32%N]; Ingest.lit "b"]
    = Ingest.Loaded es ds.
Proof.
  apply (load_succeeds_on_records IngestSpec.echoParse []).
  assert (record :
            forall s, exists e d, IngestSpec.recordOn IngestSpec.echoParse s e d).
  { intros s. exists [Ingest.JNumber 1], (Ingest.trim s, Ingest.trim s).
    eexists. split; [reflexivity|]. repeat split; reflexivity. }
  vm_compute IngestSpec.nonBlankLines.
  constructor; [apply record|]. constructor; [apply record|]. constructor.
Defined.

(** ** Vectors longer than the first *)

Lemma row_cutToDim :
  forall embeddings i,
    row (cutToDim embeddings) i
    = firstn (length (row embeddings 0)) (row embeddings i).
Proof.
  intros embeddings i. unfold cutToDim, row.
  set (dim := length (nth 0 embeddings [])).
  rewrite <- (map_nth (firstn dim) embeddings [] i), firstn_nil.
  reflexivity.
Qed.

Lemma length_cutToDim :
  forall embeddings, length (cutToDim embeddings) = length embeddings.
Proof.
  intros embeddings. apply length_map.
Qed.

Lemma dim_cutToDim :
  forall embeddings,
    length (row (cutToDim embeddings) 0) = length (row embeddings 0).
Proof.
  intros embeddings. rewrite row_cutToDim, length_firstn. lia.
Qed.

Lemma get_firstn :
  forall (dim : nat) (v : list float) (j : nat),
    (j < dim)%nat -> get (firstn dim v) j = get v j.
Proof.
  intros dim v j Hj. unfold get. rewrite nth_firstn.
  apply Nat.ltb_lt in Hj. rewrite Hj. reflexivity.
Qed.

Lemma sum_over_ext :
  forall (ks : list nat) (f g : nat -> float),
    (forall k, In k ks -> f k = g k) -> sum_over ks f = sum_over ks g.
Proof.
  intros ks f g. unfold sum_over. generalize 0.
  induction ks as [|k ks IH]; intros s H; [reflexivity|].
  cbn [fold_left]. rewrite (H k (or_introl eq_refl)).
  apply IH. intros k' Hk'. apply H. right. exact Hk'.
Qed.

Lemma euclid_firstn :
  forall (dim : nat) (u v : list float),
    euclid dim (firstn dim u) (firstn dim v) = euclid dim u v.
Proof.
  intros dim u v. unfold euclid. f_equal. apply sum_over_ext.
  intros d Hd. apply in_seq in Hd. cbv zeta.
  rewrite !get_firstn by lia. reflexivity.
Qed.

Lemma mean_cutToDim :
  forall embeddings,
    PCA.mean (length embeddings) (length (row embeddings 0))
             (cutToDim embeddings)
    = PCA.mean (length embeddings) (length (row embeddings 0)) embeddings.
Proof.
  intros embeddings. unfold PCA.mean. apply map_ext_in.
  intros j Hj. apply in_seq in Hj. f_equal. apply sum_over_ext.
  intros i _. rewrite row_cutToDim. apply get_firstn. lia.
Qed.

Lemma center_cutToDim :
  forall embeddings mu,
    PCA.center (length embeddings) (length (row embeddings 0))
               (cutToDim embeddings) mu
    = PCA.center (length embeddings) (length (row embeddings 0))
                 embeddings mu.
Proof.
  intros embeddings mu. unfold PCA.center. apply map_ext.
  intros i. apply map_ext_in. intros j Hj. apply in_seq in Hj.
  rewrite row_cutToDim, get_firstn by lia. reflexivity.
Qed.

(** X20. The distance matrix of [tSNE] and [uMAP] and the whole result of
    [incrementalPCA] depend on the first [embeddings[0].length] coordinates
    of every vector only: cutting every vector to that length changes
    neither.  The seed of [tSNE] and [uMAP] is another matter: [generateSeed]
    hashes every coordinate, so on [[0], [1, 2]] the cut changes the seed,
    and with it the layouts. *)
Theorem distances_and_PCA_read_first_dimension :
  forall (embeddings : list (list float)) (documents : list Document.t)
         (options : option PCAOptions.t),
    pairwiseDistances (cutToDim embeddings) = pairwiseDistances embeddings
    /\ incrementalPCA (cutToDim embeddings) documents options
       = incrementalPCA embeddings documents options
    /\ cutToDim [[0]; [1; 2]] = [[0]; [1]]
    /\ PrimFloat.eqb (generateSeed (cutToDim [[0]; [1; 2]]))
                     (generateSeed [[0]; [1; 2]]) = false.
Proof.
  intros embeddings documents options. split; [|split; [|split]].
  - unfold pairwiseDistances. cbv zeta.
    rewrite dim_cutToDim, length_cutToDim.
    apply map_ext. intros i. apply map_ext. intros j.
    rewrite !row_cutToDim, !euclid_firstn. reflexivity.
  - pose proof (mean_cutToDim embeddings) as Hmean.
    pose proof (center_cutToDim embeddings) as Hcenter.
    pose proof (dim_cutToDim embeddings) as Hdim.
    destruct embeddings as [|first rest]; [reflexivity|].
    unfold incrementalPCA.
    change (cutToDim (first :: rest))
      with (firstn (length first) first :: map (firstn (length first)) rest)
      in *.
    cbv zeta. cbn [length] in *. unfold row in Hdim, Hmean, Hcenter.
    cbn [nth] in Hdim, Hmean, Hcenter.
    rewrite length_map. rewrite Hdim, Hmean, Hcenter. reflexivity.
  - reflexivity.
  - vm_compute. reflexivity.
Qed.
